(** * fastapi_versioning/versioning.py: the version partitioning of an
      application's routes, embedded in Rocq.

    The Python function [VersionedFastAPI] reads the route list of an
    application, groups the API routes by the version tag of their
    endpoint, and mounts one sub-application per version on a fresh parent
    application; every sub-application receives the routes accumulated so
    far in one running dictionary keyed by [path + "|" + method].  With
    [enable_latest] or [enable_legacy] one more sub-application is mounted
    and the static mounts of the input are mounted again on the parent.

    The embedding keeps the shape of the source: Python dictionaries are
    insertion-ordered association lists, exceptions are the left summand of
    a small error monad, the local variable [version] that the loops bind
    is threaded through explicitly.  What the function calls and does not
    define, [str.format] and the constructors of the framework, are
    parameters of the embedding: each call returns or raises. *)

From Stdlib Require Import List String Ascii ZArith Bool Lia Permutation.
From Stdlib Require Import Sorting.Sorted.
From Stdlib Require Import DecimalString.
Import ListNotations.

Local Open Scope string_scope.
Local Open Scope Z_scope.

(** ** Exceptions and the error monad *)

(** The Python exceptions that the function and the runtime under it
    raise.  [Unmodelled] is no Python exception: it is the answer of the
    instances of the runtime given further down ([str_format], [fastapi])
    on the inputs they do not cover. *)
Inductive Exception : Type :=
| ValueError
| KeyError
| IndexError
| TypeError
| AssertionError
| UnboundLocalError
| OtherException (name : string)
| Unmodelled.

Definition M (A : Type) : Type := (Exception + A)%type.

Definition ret {A : Type} (a : A) : M A := inr a.

Definition raise {A : Type} (e : Exception) : M A := inl e.

Definition bind {A B : Type} (m : M A) (k : A -> M B) : M B :=
  match m with
  | inl e => inl e
  | inr a => k a
  end.

Notation "x <- m ;; k" := (bind m (fun x => k))
  (at level 61, m at next level, right associativity).

(** ** Python dictionaries

    A [dict] keeps its keys in insertion order; assigning to a key that is
    present replaces the value in place and keeps the position. *)

Section Dict.
Context {K V : Type}.
Variable eqb : K -> K -> bool.

Definition dict : Type := list (K * V).

Fixpoint dict_get (d : dict) (k : K) : option V :=
  match d with
  | [] => None
  | (k', v) :: d' => if eqb k k' then Some v else dict_get d' k
  end.

Fixpoint dict_set (d : dict) (k : K) (v : V) : dict :=
  match d with
  | [] => [(k, v)]
  | (k', v') :: d' =>
      if eqb k k' then (k', v) :: d' else (k', v') :: dict_set d' k v
  end.

Definition dict_keys (d : dict) : list K := map fst d.

Definition dict_values (d : dict) : list V := map snd d.
End Dict.

(** ** Versions *)

Definition Version : Type := (Z * Z)%type.

Definition version_eqb (a b : Version) : bool :=
  (fst a =? fst b) && (snd a =? snd b).

(** Python compares tuples lexicographically. *)
Definition version_ltb (a b : Version) : bool :=
  (fst a <? fst b) || ((fst a =? fst b) && (snd a <? snd b)).

Definition version_leb (a b : Version) : bool := negb (version_ltb b a).

(** [sorted(d.keys())] on a dictionary keyed by version tuples: a stable
    insertion sort (the keys of a dictionary are distinct, so every sorting
    algorithm returns the same list). *)
Fixpoint insert_version (v : Version) (l : list Version) : list Version :=
  match l with
  | [] => [v]
  | x :: l' => if version_leb v x then v :: l else x :: insert_version v l'
  end.

Definition sorted (l : list Version) : list Version :=
  fold_right insert_version [] l.

(** ** Routes of the input application *)

(** A handler function; [version] stores the tag in the attribute
    [_api_version] of the function it decorates. *)
Record Endpoint : Type := {
  endpoint_name : string;
  _api_version : option Version
}.

(** [fastapi.routing.APIRoute].  [route_id] is the identity of the Python
    object.  [methods] is a Python set of strings: the list gives its
    elements in the order in which the set is iterated. *)
Record APIRoute : Type := {
  route_id : nat;
  path : string;
  methods : list string;
  endpoint : Endpoint
}.

(** An application that is mounted as it is (a file server, say). *)
Record Mount : Type := {
  mount_path : string;
  mount_app : string;
  mount_name : option string
}.

(** The elements of [app.routes]: API routes, mounts, and every other
    [BaseRoute] (plain routes, websocket routes, ...). *)
Inductive BaseRoute : Type :=
| Route_API (r : APIRoute)
| Route_Mount (m : Mount)
| Route_Other (name : string).

(** The decorator [version(major, minor)]. *)
Definition version (major minor : Z) (func : Endpoint) : Endpoint :=
  {| endpoint_name := endpoint_name func; _api_version := Some (major, minor) |}.

Definition filter_api_routes (route : BaseRoute) : bool :=
  match route with
  | Route_API _ => true
  | _ => false
  end.

Definition filter_static_mounts (route : BaseRoute) : bool :=
  match route with
  | Route_Mount _ => true
  | _ => false
  end.

(** [getattr(func, "_api_version", default_version)] *)
Definition getattr_api_version (func : Endpoint) (default_version : Version)
  : Version :=
  match _api_version func with
  | Some v => v
  | None => default_version
  end.

(** [cast(APIRoute, route)] does nothing at run time: it tells the type
    checker that the route is an API route.  Line 58 applies the function
    to the routes that [filter_api_routes] lets through, and the embedding
    defines it on API routes. *)
Definition version_to_route (api_route : APIRoute) (default_version : Version)
  : Version * APIRoute :=
  (getattr_api_version (endpoint api_route) default_version, api_route).

(** The routes of a list that are API routes, seen at their class: what
    [cast(APIRoute, route)] stands for on the filtered list of line 58. *)
Fixpoint api_routes_of (rs : list BaseRoute) : list APIRoute :=
  match rs with
  | [] => []
  | Route_API r :: rs' => r :: api_routes_of rs'
  | _ :: rs' => api_routes_of rs'
  end.

(** The routes of a list that are mounts, seen at their class: what
    [cast(Mount, mount)] stands for on the filtered list of line 64. *)
Fixpoint static_mounts_of (rs : list BaseRoute) : list Mount :=
  match rs with
  | [] => []
  | Route_Mount m :: rs' => m :: static_mounts_of rs'
  | _ :: rs' => static_mounts_of rs'
  end.

(** ** Applications *)

(** Keyword arguments, by name, with string values. *)
Definition Kwargs : Type := list (string * string).

(** The input application, as far as the function reads it. *)
Record FastAPI : Type := {
  title : string;
  description : string;
  routes : list BaseRoute
}.

(** A sub-application built by [FastAPI(title=..., description=...,
    version=semver, **args)]: the arguments of the call, and in [v_routes]
    what the function appends to [versioned_app.router.routes], in order. *)
Record VersionedApp : Type := {
  v_title : string;
  v_description : string;
  v_version : string;
  v_args : Kwargs;
  v_routes : list APIRoute
}.

Inductive ASGIApp : Type :=
| App_Versioned (a : VersionedApp)
| App_Static (app : string).

(** What the function adds to the routes of the parent application, as
    the arguments of the calls that returned:
    [parent_app.mount(path, app, name)] and
    [parent_app.get(path, name=..., tags=...)(noop)]. *)
Inductive ParentRoute : Type :=
| Parent_Mount (mpath : string) (app : ASGIApp) (name : option string)
| Parent_Get (gpath : string) (name : string) (tags : list string).

Record ParentApp : Type := {
  p_title : string;
  p_kwargs : Kwargs;
  p_routes : list ParentRoute
}.

(** The framework under the function (FastAPI and Starlette), as far as
    the function calls it: each call either raises or returns.
    [FastAPI_init] is the constructor [FastAPI] on all its keyword arguments,
    [Mount_init] is the construction of the mount in
    [parent_app.mount(path, app, name)], [APIRoute_init] the construction of
    the route in [parent_app.get(path, name=..., tags=...)(noop)]. *)
Record Framework : Type := {
  FastAPI_init : Kwargs -> M unit;
  Mount_init : string -> ASGIApp -> option string -> M unit;
  APIRoute_init : string -> string -> list string -> M unit
}.

(** [parent_app.mount(path, app, name)]: when the framework accepts the
    mount, it is appended to the routes of the parent. *)
Definition mount (fw : Framework) (parent_app : ParentApp) (mpath : string)
  (app : ASGIApp) (name : option string) : M ParentApp :=
  _ <- Mount_init fw mpath app name ;;
  ret {| p_title := p_title parent_app;
         p_kwargs := p_kwargs parent_app;
         p_routes := (p_routes parent_app ++ [Parent_Mount mpath app name])%list |}.

(** [parent_app.get(path, name=name, tags=tags)(noop)] *)
Definition get (fw : Framework) (parent_app : ParentApp) (gpath : string)
  (name : string) (tags : list string) : M ParentApp :=
  _ <- APIRoute_init fw gpath name tags ;;
  ret {| p_title := p_title parent_app;
         p_kwargs := p_kwargs parent_app;
         p_routes := (p_routes parent_app ++ [Parent_Get gpath name tags])%list |}.

(** ** The dictionaries of the function *)

(** [version_route_mapping : defaultdict(list)], keyed by version. *)
Definition VersionRouteMapping : Type := @dict Version (list APIRoute).

(** [version_route_mapping[version]]: a missing key reads as the empty
    list. *)
Definition mapping_get (m : VersionRouteMapping) (v : Version) : list APIRoute :=
  match dict_get version_eqb m v with
  | Some l => l
  | None => []
  end.

(** [version_route_mapping[version].append(route)] *)
Definition mapping_append (m : VersionRouteMapping) (v : Version) (route : APIRoute)
  : VersionRouteMapping :=
  dict_set version_eqb m v (mapping_get m v ++ [route])%list.

(** [unique_routes], keyed by [route.path + "|" + method]. *)
Definition UniqueRoutes : Type := @dict string APIRoute.

Definition route_key (p method : string) : string := p ++ "|" ++ method.

(** Lines 78-80: every method of every route of the bucket is written to
    the running dictionary. *)
Definition add_route (unique_routes : UniqueRoutes) (route : APIRoute) : UniqueRoutes :=
  fold_left
    (fun u method => dict_set String.eqb u (route_key (path route) method) route)
    (methods route) unique_routes.

Definition add_routes (unique_routes : UniqueRoutes) (bucket : list APIRoute)
  : UniqueRoutes :=
  fold_left add_route bucket unique_routes.

(** ** The function [VersionedFastAPI] *)

(** The local variables that outlive the loops. *)
Record Locals : Type := {
  parent_app : ParentApp;
  unique_routes : UniqueRoutes;
  version_var : option Version
}.

Section Composition.

(** [template.format(major=major, minor=minor)] of the Python runtime. *)
Variable format : string -> Z -> Z -> M string.

(** The framework that the function runs on. *)
Variable fw : Framework.

Variable app : FastAPI.
Variable version_format : string.
Variable prefix_format : string.
Variable default_version : Version.
Variable enable_latest : bool.
Variable enable_legacy : bool.
Variable kwargs : Kwargs.

(** Lines 46-49: a [title] among the keyword arguments clashes with the
    explicit one when the call is made; otherwise the framework receives
    the title and the keyword arguments. *)
Definition new_parent_app : M ParentApp :=
  if existsb (String.eqb "title") (map fst kwargs)
  then raise TypeError
  else
    _ <- FastAPI_init fw (("title", title app) :: kwargs) ;;
    ret {| p_title := title app; p_kwargs := kwargs; p_routes := [] |}.

(** Lines 51-52 *)
Definition args : Kwargs :=
  filter
    (fun kv => negb (existsb (String.eqb (fst kv)) ["title"; "description"; "version"]))
    kwargs.

(** Lines 57-59 *)
Definition version_routes : list (Version * APIRoute) :=
  map (fun route => version_to_route route default_version)
      (api_routes_of (filter filter_api_routes (routes app))).

(** Lines 61-62; the loop leaves its last version in the local variable. *)
Definition group_routes (version_routes : list (Version * APIRoute))
  : VersionRouteMapping * option Version :=
  fold_left
    (fun st vr => (mapping_append (fst st) (fst vr) (snd vr), Some (fst vr)))
    version_routes ([], None).

(** The keyword arguments of the calls of lines 72-77 and 96-101. *)
Definition versioned_kwargs (semver : string) : Kwargs :=
  ("title", title app) :: ("description", description app)
    :: ("version", semver) :: args.

(** Lines 72-77 and 96-101 *)
Definition new_versioned_app (semver : string) : M VersionedApp :=
  _ <- FastAPI_init fw (versioned_kwargs semver) ;;
  ret {| v_title := title app;
         v_description := description app;
         v_version := semver;
         v_args := args;
         v_routes := [] |}.

(** Lines 81-82 and 108-109 *)
Definition append_routes (versioned_app : VersionedApp) (rs : list APIRoute)
  : VersionedApp :=
  {| v_title := v_title versioned_app;
     v_description := v_description versioned_app;
     v_version := v_version versioned_app;
     v_args := v_args versioned_app;
     v_routes := (v_routes versioned_app ++ rs)%list |}.

(** Lines 69-90: the body of the loop over the sorted versions.  The two
    decorators of [noop] are applied from the bottom up. *)
Definition version_step (version_route_mapping : VersionRouteMapping)
  (st : Locals) (version : Version) : M Locals :=
  let '(major, minor) := version in
  prefix <- format prefix_format major minor ;;
  semver <- format version_format major minor ;;
  versioned_app <- new_versioned_app semver ;;
  let unique_routes :=
    add_routes (unique_routes st) (mapping_get version_route_mapping version) in
  let versioned_app := append_routes versioned_app (dict_values unique_routes) in
  parent_app <- mount fw (parent_app st) prefix (App_Versioned versioned_app) None ;;
  parent_app <- get fw parent_app (prefix ++ "/docs") semver ["Documentations"] ;;
  parent_app <- get fw parent_app (prefix ++ "/openapi.json") semver ["Versions"] ;;
  ret {| parent_app := parent_app;
         unique_routes := unique_routes;
         version_var := Some version |}.

(** Line 68 *)
Fixpoint for_versions (version_route_mapping : VersionRouteMapping)
  (versions : list Version) (st : Locals) : M Locals :=
  match versions with
  | [] => ret st
  | version :: versions' =>
      st' <- version_step version_route_mapping st version ;;
      for_versions version_route_mapping versions' st'
  end.

(** Lines 104-106 *)
Fixpoint mount_static (parent_app : ParentApp) (static_mounts : list Mount)
  : M ParentApp :=
  match static_mounts with
  | [] => ret parent_app
  | api_mount :: static_mounts' =>
      parent_app' <- mount fw parent_app (mount_path api_mount)
                       (App_Static (mount_app api_mount)) (mount_name api_mount) ;;
      mount_static parent_app' static_mounts'
  end.

(** Lines 92-110 *)
Definition alias (static_mounts : list Mount) (st : Locals) : M ParentApp :=
  if enable_latest || enable_legacy then
    let prefix := if enable_latest then "/latest" else "" in
    v <- (if enable_latest
          then match version_var st with
               | Some version => ret version
               | None => raise UnboundLocalError
               end
          else ret default_version) ;;
    let '(major, minor) := v in
    semver <- format version_format major minor ;;
    versioned_app <- new_versioned_app semver ;;
    parent_app <- mount_static (parent_app st) static_mounts ;;
    let versioned_app := append_routes versioned_app (dict_values (unique_routes st)) in
    mount fw parent_app prefix (App_Versioned versioned_app) None
  else ret (parent_app st).

Definition VersionedFastAPI : M ParentApp :=
  parent_app <- new_parent_app ;;
  let version_routes := version_routes in
  let '(version_route_mapping, version) := group_routes version_routes in
  let static_mounts :=
    static_mounts_of (filter filter_static_mounts (routes app)) in
  let unique_routes : UniqueRoutes := [] in
  let versions := sorted (dict_keys version_route_mapping) in
  st <- for_versions version_route_mapping versions
          {| parent_app := parent_app;
             unique_routes := unique_routes;
             version_var := version |} ;;
  alias static_mounts st.

End Composition.

(** ** Instances of the runtime

    [str_format] is [template.format(major=major, minor=minor)] on the
    templates whose replacement fields are plain names: doubled braces are
    literal braces, [{major}] and [{minor}] print the integer in decimal, an
    unknown name is a [KeyError], an empty or short numeric name an
    [IndexError], an unmatched brace a [ValueError].  Conversions ([!r]),
    format specifications ([:02d]), attribute or index access and long
    numeric names are not covered: there the answer is [Unmodelled]. *)

Definition str_of_int (z : Z) : string := NilZero.string_of_int (Z.to_int z).

Definition is_digit (c : ascii) : bool :=
  let n := nat_of_ascii c in (Nat.leb 48 n && Nat.leb n 57)%bool.

Fixpoint string_forallb (f : ascii -> bool) (s : string) : bool :=
  match s with
  | EmptyString => true
  | String c s' => f c && string_forallb f s'
  end.

Definition outside_fragment (c : ascii) : bool :=
  Ascii.eqb c "!" || Ascii.eqb c ":" || Ascii.eqb c "." || Ascii.eqb c "[".

Definition format_field (field : string) (major minor : Z) : M string :=
  if String.eqb field "major" then ret (str_of_int major)
  else if String.eqb field "minor" then ret (str_of_int minor)
  else if negb (string_forallb (fun c => negb (outside_fragment c)) field)
       then raise Unmodelled
  else if string_forallb is_digit field
       then if Nat.leb (String.length field) 9
            then raise IndexError
            else raise Unmodelled
  else raise KeyError.

Fixpoint format_from (template : string) (field : option string)
  (major minor : Z) : M string :=
  match template, field with
  | EmptyString, None => ret ""
  | EmptyString, Some _ => raise ValueError
  | String c rest, None =>
      if Ascii.eqb c "{" then
        match rest with
        | String "{" rest' =>
            out <- format_from rest' None major minor ;; ret (String "{" out)
        | _ => format_from rest (Some "") major minor
        end
      else if Ascii.eqb c "}" then
        match rest with
        | String "}" rest' =>
            out <- format_from rest' None major minor ;; ret (String "}" out)
        | _ => raise ValueError
        end
      else out <- format_from rest None major minor ;; ret (String c out)
  | String c rest, Some name =>
      if Ascii.eqb c "}" then
        text <- format_field name major minor ;;
        out <- format_from rest None major minor ;;
        ret (text ++ out)
      else if Ascii.eqb c "{" then
        if string_forallb (fun c => negb (outside_fragment c)) name
        then raise ValueError
        else raise Unmodelled
      else format_from rest (Some (name ++ String c "")) major minor
  end.

Definition str_format (template : string) (major minor : Z) : M string :=
  format_from template None major minor.

(** [fastapi] gives the answers of the framework on the calls of the
    scenarios.  [FastAPI(...)] with a title, a description and a version
    only (and so with the default [openapi_url]) asserts that the title
    and the version are not empty; a mount asserts that its path is empty
    or starts with [/]; an API route is accepted when its path starts with
    [/].  Other keyword arguments, paths with braces (path parameters) and
    route paths without a leading [/] are not covered: there the answer is
    [Unmodelled]. *)

Definition kwarg (kw : Kwargs) (name : string) : option string :=
  option_map snd (find (fun kv => String.eqb (fst kv) name) kw).

Definition has_brace (s : string) : bool :=
  negb (string_forallb
          (fun c => negb (Ascii.eqb c "{" || Ascii.eqb c "}")) s).

Definition starts_with_slash (s : string) : bool :=
  match s with
  | String "/" _ => true
  | _ => false
  end.

Definition fastapi_init (kw : Kwargs) : M unit :=
  if negb (forallb
             (fun kv => existsb (String.eqb (fst kv))
                          ["title"; "description"; "version"]) kw)
  then raise Unmodelled
  else
    match kwarg kw "title", kwarg kw "version" with
    | Some "", _ => raise AssertionError
    | _, Some "" => raise AssertionError
    | _, _ => ret tt
    end.

Definition starlette_mount_init (mpath : string) (app : ASGIApp)
  (name : option string) : M unit :=
  if negb (String.eqb mpath "" || starts_with_slash mpath)
  then raise AssertionError
  else if has_brace mpath then raise Unmodelled
  else ret tt.

Definition fastapi_route_init (gpath : string) (name : string)
  (tags : list string) : M unit :=
  if starts_with_slash gpath && negb (has_brace gpath)
  then ret tt
  else raise Unmodelled.

Definition fastapi : Framework :=
  {| FastAPI_init := fastapi_init;
     Mount_init := starlette_mount_init;
     APIRoute_init := fastapi_route_init |}.

(** The defaults of the keyword parameters of [VersionedFastAPI]. *)
Definition default_version_format : string := "{major}.{minor}".
Definition default_prefix_format : string := "/v{major}_{minor}".
Definition default_default_version : Version := (1, 0).


(** ** Vocabulary of the properties

    The definitions below name what the loops compute, so that the
    properties can speak about it: the versionable routes with their
    effective version, the keys a route writes, and the state of
    [unique_routes] at the end of each iteration of the loop over the
    versions (the cumulative route table of that version). *)

(** The value of [version_routes] (lines 57-59) when nothing raises. *)
Fixpoint tagged_routes (rs : list BaseRoute) (default_version : Version)
  : list (Version * APIRoute) :=
  match rs with
  | [] => []
  | Route_API r :: rs' =>
      (getattr_api_version (endpoint r) default_version, r)
        :: tagged_routes rs' default_version
  | _ :: rs' => tagged_routes rs' default_version
  end.

(** The routes of the input tagged [v], in the order of the input. *)
Definition bucket (vrs : list (Version * APIRoute)) (v : Version) : list APIRoute :=
  map snd (filter (fun vr => version_eqb (fst vr) v) vrs).

(** The keys of [unique_routes] that line 80 writes for a route. *)
Definition route_keys (route : APIRoute) : list string :=
  map (route_key (path route)) (methods route).

(** Reading [unique_routes] at a key. *)
Notation "'lookup'" := (dict_get String.eqb).

(** Every value of [unique_routes] sits under one of its own keys. *)
Definition own_keys (u : UniqueRoutes) : Prop :=
  forall k r, lookup u k = Some r -> In k (route_keys r).

(** Strictly ascending lists of versions. *)
Notation "'ascending'" := (StronglySorted (fun a b => version_ltb a b = true)).

(** [unique_routes] after each iteration of the loop of line 68. *)
Fixpoint tables_from (version_route_mapping : VersionRouteMapping)
  (versions : list Version) (u : UniqueRoutes) : list (Version * UniqueRoutes) :=
  match versions with
  | [] => []
  | v :: versions' =>
      let u' := add_routes u (mapping_get version_route_mapping v) in
      (v, u') :: tables_from version_route_mapping versions' u'
  end.

(** [unique_routes] when the loop of line 68 is over. *)
Definition final_table (version_route_mapping : VersionRouteMapping)
  (versions : list Version) (u : UniqueRoutes) : UniqueRoutes :=
  fold_left (fun u v => add_routes u (mapping_get version_route_mapping v))
            versions u.

(** The versions present in the input, ascending. *)
Definition versions_present (app : FastAPI) (default_version : Version)
  : list Version :=
  sorted (dict_keys (fst (group_routes (tagged_routes (routes app) default_version)))).

(** The cumulative route tables of the input, one per version present. *)
Definition cumulative_tables (app : FastAPI) (default_version : Version)
  : list (Version * UniqueRoutes) :=
  let version_route_mapping :=
    fst (group_routes (tagged_routes (routes app) default_version)) in
  tables_from version_route_mapping (sorted (dict_keys version_route_mapping)) [].

(** The sub-applications among the routes of the parent, with the prefix
    they are mounted at, in mounting order. *)
Fixpoint sub_applications (rs : list ParentRoute) : list (string * VersionedApp) :=
  match rs with
  | [] => []
  | Parent_Mount prefix (App_Versioned a) _ :: rs' => (prefix, a) :: sub_applications rs'
  | _ :: rs' => sub_applications rs'
  end.

(** What one iteration of the loop over the versions adds to the parent. *)
Definition version_entries (app : FastAPI) (kwargs : Kwargs)
  (prefix semver : string) (table : UniqueRoutes) : list ParentRoute :=
  [ Parent_Mount prefix
      (App_Versioned {| v_title := title app;
                        v_description := description app;
                        v_version := semver;
                        v_args := args kwargs;
                        v_routes := dict_values table |}) None;
    Parent_Get (prefix ++ "/docs") semver ["Documentations"];
    Parent_Get (prefix ++ "/openapi.json") semver ["Versions"] ].

(** The mount of line 106 for a static mount of the input. *)
Definition mount_entry (m : Mount) : ParentRoute :=
  Parent_Mount (mount_path m) (App_Static (mount_app m)) (mount_name m).

(** What lines 104-106 add to the parent: one mount per static mount of
    the input. *)
Fixpoint static_entries (rs : list BaseRoute) : list ParentRoute :=
  match rs with
  | [] => []
  | Route_Mount m :: rs' =>
      Parent_Mount (mount_path m) (App_Static (mount_app m)) (mount_name m)
        :: static_entries rs'
  | _ :: rs' => static_entries rs'
  end.

(** What the loop over the versions adds to the parent, given the table of
    every iteration: the entries of each version in turn, under the prefix
    and the label the two templates format to. *)
Inductive mounts_versions (format : string -> Z -> Z -> M string)
  (app : FastAPI) (version_format prefix_format : string) (kwargs : Kwargs)
  : list (Version * UniqueRoutes) -> list ParentRoute -> Prop :=
| mounts_nil :
    mounts_versions format app version_format prefix_format kwargs [] []
| mounts_cons major minor table tables prefix semver rest :
    format prefix_format major minor = inr prefix ->
    format version_format major minor = inr semver ->
    mounts_versions format app version_format prefix_format kwargs tables rest ->
    mounts_versions format app version_format prefix_format kwargs
      ((major, minor, table) :: tables)
      (version_entries app kwargs prefix semver table ++ rest)%list.

(** [unique_routes] as the alias reads it on line 108. *)
Definition alias_table (app : FastAPI) (default_version : Version) : UniqueRoutes :=
  final_table (fst (group_routes (tagged_routes (routes app) default_version)))
              (versions_present app default_version) [].

(** The alias sub-application and its mount (lines 96-110). *)
Definition alias_entry (app : FastAPI) (kwargs : Kwargs) (prefix semver : string)
  (table : UniqueRoutes) : ParentRoute :=
  Parent_Mount prefix
    (App_Versioned {| v_title := title app;
                      v_description := description app;
                      v_version := semver;
                      v_args := args kwargs;
                      v_routes := dict_values table |}) None.

(** A sub-application [pa] (with its prefix) is the one of the version and
    table [vt]: mounted at the prefix and labelled with the version string
    the templates format to, with the values of the table as its routes. *)
Definition mounted_for (format : string -> Z -> Z -> M string)
  (version_format prefix_format : string)
  (vt : Version * UniqueRoutes) (pa : string * VersionedApp) : Prop :=
  format prefix_format (fst (fst vt)) (snd (fst vt)) = inr (fst pa) /\
  format version_format (fst (fst vt)) (snd (fst vt)) = inr (v_version (snd pa)) /\
  v_routes (snd pa) = dict_values (snd vt).

Definition APIRoute_eq_dec : forall a b : APIRoute, {a = b} + {a <> b}.
Proof.
  repeat decide equality; try apply Z.eq_dec; try apply Ascii.ascii_dec.
Defined.

(** Named inputs of the scenarios. *)
Definition handler (name : string) (tag : option Version) : Endpoint :=
  {| endpoint_name := name; _api_version := tag |}.

Definition api_route (id : nat) (p : string) (ms : list string) (e : Endpoint)
  : APIRoute :=
  {| route_id := id; path := p; methods := ms; endpoint := e |}.

Definition make_app (rs : list BaseRoute) : FastAPI :=
  {| title := "app"; description := ""; routes := rs |}.

(** A method name without the separator of the keys. *)
Definition bar_free (s : string) : bool :=
  string_forallb (fun c => negb (Ascii.eqb c "|")) s.

(** ** Vocabulary of the parent's routes *)

(** The applications mounted as they are on the parent, with the path and
    the name of their mount. *)
Fixpoint static_remounts (rs : list ParentRoute) : list Mount :=
  match rs with
  | [] => []
  | Parent_Mount mpath (App_Static a) name :: rs' =>
      {| mount_path := mpath; mount_app := a; mount_name := name |}
        :: static_remounts rs'
  | _ :: rs' => static_remounts rs'
  end.

(** The routes that [parent_app.get] registers on the parent: path, name
    and tags. *)
Fixpoint get_routes (rs : list ParentRoute)
  : list (string * string * list string) :=
  match rs with
  | [] => []
  | Parent_Get gpath name tags :: rs' => (gpath, name, tags) :: get_routes rs'
  | _ :: rs' => get_routes rs'
  end.

(** The two routes of lines 85-90 for a sub-application and its prefix. *)
Definition docs_routes (pa : string * VersionedApp)
  : list (string * string * list string) :=
  [ (fst pa ++ "/docs", v_version (snd pa), ["Documentations"]);
    (fst pa ++ "/openapi.json", v_version (snd pa), ["Versions"]) ].

(** A table maps a key to a given route. *)
Definition maps_to (T : UniqueRoutes) (k : string) (r : APIRoute) : bool :=
  match lookup T k with
  | Some r' => if APIRoute_eq_dec r' r then true else false
  | None => false
  end.

(** An exception that comes out of the runtime under the function: out of
    one of the two templates, or out of a call of the framework. *)
Definition raised_by_runtime (format : string -> Z -> Z -> M string)
  (fw : Framework) (version_format prefix_format : string) (e : Exception)
  : Prop :=
  (exists template major minor,
     (template = prefix_format \/ template = version_format) /\
     format template major minor = inl e) \/
  (exists kw, FastAPI_init fw kw = inl e) \/
  (exists mpath app name, Mount_init fw mpath app name = inl e) \/
  (exists gpath name tags, APIRoute_init fw gpath name tags = inl e).

(** The framework accepts the mount of a static mount of the input. *)
Definition static_mount_accepted (fw : Framework) (m : Mount) : Prop :=
  Mount_init fw (mount_path m) (App_Static (mount_app m)) (mount_name m) = inr tt.

(** The runtime lets the iteration of a version through: both templates
    format the version, and the framework accepts the sub-application, its
    mount and its two routes. *)
Definition version_accepted (format : string -> Z -> Z -> M string)
  (fw : Framework) (app : FastAPI) (version_format prefix_format : string)
  (kwargs : Kwargs) (vt : Version * UniqueRoutes) : Prop :=
  exists prefix semver,
    format prefix_format (fst (fst vt)) (snd (fst vt)) = inr prefix /\
    format version_format (fst (fst vt)) (snd (fst vt)) = inr semver /\
    FastAPI_init fw (versioned_kwargs app kwargs semver) = inr tt /\
    Mount_init fw prefix
      (App_Versioned {| v_title := title app;
                        v_description := description app;
                        v_version := semver;
                        v_args := args kwargs;
                        v_routes := dict_values (snd vt) |}) None = inr tt /\
    APIRoute_init fw (prefix ++ "/docs") semver ["Documentations"] = inr tt /\
    APIRoute_init fw (prefix ++ "/openapi.json") semver ["Versions"] = inr tt.

(** The runtime lets the alias branch through. *)
Definition alias_accepted (format : string -> Z -> Z -> M string)
  (fw : Framework) (app : FastAPI) (version_format : string)
  (default_version : Version) (enable_latest : bool) (kwargs : Kwargs) : Prop :=
  exists V semver,
    (if enable_latest
     then versions_present app default_version <> [] /\
          V = last (versions_present app default_version) (0, 0)
     else V = default_version) /\
    format version_format (fst V) (snd V) = inr semver /\
    FastAPI_init fw (versioned_kwargs app kwargs semver) = inr tt /\
    Forall (static_mount_accepted fw) (static_mounts_of (routes app)) /\
    Mount_init fw (if enable_latest then "/latest" else "")
      (App_Versioned {| v_title := title app;
                        v_description := description app;
                        v_version := semver;
                        v_args := args kwargs;
                        v_routes := dict_values (alias_table app default_version) |})
      None = inr tt.

(** ** Inputs of the scenarios

    Scenario B: [GET /items] at [(1, 0)] and another handler for the same
    path and method at [(2, 0)].  Scenario C: [GET /a] at [(1, 0)] and
    [GET /b] at [(2, 0)].  Scenario D: no versionable route and one static
    mount. *)

Definition scenario_B_old : APIRoute :=
  api_route 1 "/items" ["GET"] (version 1 0 (handler "items_v1" None)).

Definition scenario_B_new : APIRoute :=
  api_route 2 "/items" ["GET"] (version 2 0 (handler "items_v2" None)).

Definition scenario_B : FastAPI :=
  make_app [Route_API scenario_B_old; Route_API scenario_B_new].

Definition scenario_C_a : APIRoute :=
  api_route 1 "/a" ["GET"] (version 1 0 (handler "a" None)).

Definition scenario_C_b : APIRoute :=
  api_route 2 "/b" ["GET"] (version 2 0 (handler "b" None)).

Definition scenario_C : FastAPI :=
  make_app [Route_API scenario_C_a; Route_API scenario_C_b].

Definition scenario_C_latest : ParentApp :=
  {| p_title := "app";
     p_kwargs := [];
     p_routes :=
       (version_entries scenario_C [] "/v1_0" "1.0" [("/a|GET", scenario_C_a)]
        ++ version_entries scenario_C [] "/v2_0" "2.0"
             [("/a|GET", scenario_C_a); ("/b|GET", scenario_C_b)]
        ++ [alias_entry scenario_C [] "/latest" "2.0"
              [("/a|GET", scenario_C_a); ("/b|GET", scenario_C_b)]])%list |}.

Definition static_files : Mount :=
  {| mount_path := "/static"; mount_app := "StaticFiles";
     mount_name := Some "static" |}.

Definition scenario_D : FastAPI := make_app [Route_Mount static_files].

Definition scenario_C_parent : ParentApp :=
  {| p_title := "app";
     p_kwargs := [];
     p_routes :=
       (version_entries scenario_C [] "/v1_0" "1.0" [("/a|GET", scenario_C_a)]
        ++ version_entries scenario_C [] "/v2_0" "2.0"
             [("/a|GET", scenario_C_a); ("/b|GET", scenario_C_b)])%list |}.

Definition two_methods : APIRoute :=
  api_route 1 "/x" ["GET"; "POST"] (version 1 0 (handler "x" None)).

Definition get_again : APIRoute :=
  api_route 2 "/x" ["GET"] (version 1 0 (handler "x_get" None)).

Definition scenario_overwritten : FastAPI :=
  make_app [Route_API two_methods; Route_API get_again].

(** * Properties *)

(** ** The templates *)

Example str_format_prefix : str_format default_prefix_format 1 0 = inr "/v1_0".
Proof. reflexivity. Qed.

Example str_format_semver : str_format default_version_format 12 (-3) = inr "12.-3".
Proof. reflexivity. Qed.

Example str_format_braces : str_format "{{v}}{minor}" 1 20 = inr "{v}20".
Proof. reflexivity. Qed.

Example str_format_unknown : str_format "/v{patch}" 1 0 = inl KeyError.
Proof. reflexivity. Qed.

Example str_format_unclosed : str_format "/v{major" 1 0 = inl ValueError.
Proof. reflexivity. Qed.

Example str_format_specification : str_format "/v{major:02d}" 1 0 = inl Unmodelled.
Proof. reflexivity. Qed.

Example fastapi_empty_title :
  FastAPI_init fastapi [("title", ""); ("description", ""); ("version", "1.0")]
  = inl AssertionError.
Proof. reflexivity. Qed.

Example fastapi_mount_without_slash :
  Mount_init fastapi "v1" (App_Static "files") None = inl AssertionError.
Proof. reflexivity. Qed.

(** ** Dictionaries *)

Section DictFacts.
Context {K V : Type}.
Variable eqb : K -> K -> bool.
Hypothesis eqb_eq : forall a b, eqb a b = true <-> a = b.

Lemma eqb_refl_true (a : K) : eqb a a = true.
Proof. now apply eqb_eq. Qed.

Lemma eqb_neq_false (a b : K) : a <> b -> eqb a b = false.
Proof.
  intros Hab; destruct (eqb a b) eqn:E; [|reflexivity].
  now apply eqb_eq in E.
Qed.

Lemma dict_get_set_same (d : @dict K V) k v :
  dict_get eqb (dict_set eqb d k v) k = Some v.
Proof.
  induction d as [|[k' v'] d IH]; simpl.
  - now rewrite eqb_refl_true.
  - destruct (eqb k k') eqn:E; simpl; rewrite E; auto.
Qed.

Lemma dict_get_set_other (d : @dict K V) k k' v :
  k' <> k -> dict_get eqb (dict_set eqb d k v) k' = dict_get eqb d k'.
Proof.
  intros Hne; induction d as [|[k0 v0] d IH]; simpl.
  - now rewrite (eqb_neq_false k' k).
  - destruct (eqb k k0) eqn:E; simpl.
    + apply eqb_eq in E; subst k0.
      now rewrite (eqb_neq_false k' k).
    + now rewrite IH.
Qed.

Lemma dict_keys_set (d : @dict K V) k v k' :
  In k' (dict_keys (dict_set eqb d k v)) <-> k' = k \/ In k' (dict_keys d).
Proof.
  unfold dict_keys; induction d as [|[k0 v0] d IH]; simpl.
  - intuition congruence.
  - destruct (eqb k k0) eqn:E; simpl.
    + apply eqb_eq in E; subst k0. intuition congruence.
    + rewrite IH. intuition congruence.
Qed.

Lemma dict_keys_set_NoDup (d : @dict K V) k v :
  NoDup (dict_keys d) -> NoDup (dict_keys (dict_set eqb d k v)).
Proof.
  unfold dict_keys; induction d as [|[k0 v0] d IH]; simpl; intros Hnd.
  - constructor; [intros []|constructor].
  - inversion Hnd as [|? ? Hnotin Hnd']; subst.
    destruct (eqb k k0) eqn:E; simpl.
    + now constructor.
    + constructor; [|now apply IH].
      intros Hin. apply (dict_keys_set d k v k0) in Hin.
      destruct Hin as [->|Hin]; [|contradiction].
      now rewrite eqb_refl_true in E.
Qed.

Lemma dict_get_In (d : @dict K V) k v :
  dict_get eqb d k = Some v -> In (k, v) d.
Proof.
  induction d as [|[k0 v0] d IH]; simpl; [discriminate|].
  destruct (eqb k k0) eqn:E.
  - apply eqb_eq in E; subst k0. intros [= ->]. now left.
  - intros H; right; auto.
Qed.

Lemma In_dict_get (d : @dict K V) k v :
  NoDup (dict_keys d) -> In (k, v) d -> dict_get eqb d k = Some v.
Proof.
  unfold dict_keys; induction d as [|[k0 v0] d IH]; simpl; [intros _ []|].
  intros Hnd [Heq|Hin]; inversion Hnd as [|? ? Hnotin Hnd']; subst.
  - injection Heq as -> ->. now rewrite eqb_refl_true.
  - destruct (eqb k k0) eqn:E; [|now apply IH].
    apply eqb_eq in E; subst k0. exfalso; apply Hnotin.
    change k with (fst (k, v)). now apply in_map.
Qed.

Lemma dict_get_None (d : @dict K V) k :
  ~ In k (dict_keys d) -> dict_get eqb d k = None.
Proof.
  unfold dict_keys; induction d as [|[k0 v0] d IH]; simpl; [reflexivity|].
  intros Hnotin. rewrite (eqb_neq_false k k0) by intuition congruence.
  apply IH; tauto.
Qed.

End DictFacts.

(** ** Versions and their order *)

Lemma version_eqb_eq (a b : Version) : version_eqb a b = true <-> a = b.
Proof.
  destruct a as [a1 a2], b as [b1 b2]; unfold version_eqb; simpl.
  rewrite andb_true_iff, !Z.eqb_eq. split; [intros [-> ->]|intros [= -> ->]]; auto.
Qed.

Lemma version_ltb_irrefl (a : Version) : version_ltb a a = false.
Proof.
  unfold version_ltb. rewrite Z.ltb_irrefl, Z.ltb_irrefl, andb_false_r. reflexivity.
Qed.

Lemma version_ltb_iff (a b : Version) :
  version_ltb a b = true <->
  fst a < fst b \/ (fst a = fst b /\ snd a < snd b).
Proof.
  unfold version_ltb.
  rewrite orb_true_iff, andb_true_iff, !Z.ltb_lt, Z.eqb_eq. reflexivity.
Qed.

Lemma version_leb_iff (a b : Version) :
  version_leb a b = true <->
  fst a < fst b \/ (fst a = fst b /\ snd a <= snd b).
Proof.
  unfold version_leb. rewrite negb_true_iff.
  destruct (version_ltb b a) eqn:E.
  - apply version_ltb_iff in E. split; [discriminate|lia].
  - split; [intros _|reflexivity].
    destruct (Z.lt_trichotomy (fst a) (fst b)) as [H|[H|H]]; [lia| |].
    + destruct (Z.le_gt_cases (snd a) (snd b)) as [H'|H']; [lia|].
      assert (version_ltb b a = true) by (apply version_ltb_iff; lia).
      congruence.
    + assert (version_ltb b a = true) by (apply version_ltb_iff; lia).
      congruence.
Qed.

Lemma version_leb_trans (a b c : Version) :
  version_leb a b = true -> version_leb b c = true -> version_leb a c = true.
Proof. rewrite !version_leb_iff. lia. Qed.

Lemma version_leb_antisym (a b : Version) :
  version_leb a b = true -> version_leb b a = true -> a = b.
Proof.
  rewrite !version_leb_iff. destruct a, b; simpl. intros; f_equal; lia.
Qed.

Lemma version_leb_refl (a : Version) : version_leb a a = true.
Proof. apply version_leb_iff. lia. Qed.

Lemma version_ltb_leb (a b : Version) :
  version_ltb a b = true <-> version_leb a b = true /\ a <> b.
Proof.
  rewrite version_ltb_iff, version_leb_iff. destruct a, b; simpl.
  split.
  - intros H; split; [lia|]. intros [= -> ->]; lia.
  - intros [H Hne].
    destruct (Z.eq_dec z0 z2) as [->|]; [|lia].
    destruct H as [H|[-> _]]; [lia|]. congruence.
Qed.

Lemma version_leb_total (a b : Version) :
  version_leb a b = true \/ version_leb b a = true.
Proof. rewrite !version_leb_iff. lia. Qed.

(** ** Sorting *)

Lemma insert_version_perm (v : Version) (l : list Version) :
  Permutation (insert_version v l) (v :: l).
Proof.
  induction l as [|x l IH]; simpl; [reflexivity|].
  destruct (version_leb v x); [reflexivity|].
  rewrite IH. apply perm_swap.
Qed.

Lemma sorted_perm (l : list Version) : Permutation (sorted l) l.
Proof.
  induction l as [|v l IH]; simpl; [reflexivity|].
  rewrite insert_version_perm. now constructor.
Qed.

Lemma insert_version_sorted (v : Version) (l : list Version) :
  StronglySorted (fun a b => version_leb a b = true) l ->
  StronglySorted (fun a b => version_leb a b = true) (insert_version v l).
Proof.
  induction l as [|x l IH]; simpl; intros Hs.
  - repeat constructor.
  - inversion Hs as [|? ? Hs' Hall]; subst.
    destruct (version_leb v x) eqn:E.
    + constructor; [assumption|]. constructor; [assumption|].
      eapply Forall_impl; [|exact Hall]. intros b Hb. simpl in Hb.
      eapply version_leb_trans; eassumption.
    + constructor; [now apply IH|].
      assert (Hxv : version_leb x v = true).
      { destruct (version_leb_total v x); congruence. }
      eapply Permutation_Forall; [symmetry; apply insert_version_perm|].
      now constructor.
Qed.

Lemma sorted_leb (l : list Version) :
  StronglySorted (fun a b => version_leb a b = true) (sorted l).
Proof.
  induction l as [|v l IH]; simpl; [constructor|now apply insert_version_sorted].
Qed.

Lemma sorted_NoDup (l : list Version) : NoDup l -> NoDup (sorted l).
Proof.
  intros H. eapply Permutation_NoDup; [symmetry; apply sorted_perm|assumption].
Qed.

Lemma leb_NoDup_ltb (l : list Version) :
  StronglySorted (fun a b => version_leb a b = true) l -> NoDup l ->
  StronglySorted (fun a b => version_ltb a b = true) l.
Proof.
  induction 1 as [|x l Hs IH Hall]; intros Hnd; [constructor|].
  inversion Hnd as [|? ? Hnotin Hnd']; subst.
  constructor; [auto|].
  rewrite Forall_forall in *. intros b Hb.
  apply version_ltb_leb. split; [auto|]. intros ->. contradiction.
Qed.

Lemma sorted_ascending (l : list Version) :
  NoDup l -> StronglySorted (fun a b => version_ltb a b = true) (sorted l).
Proof.
  intros Hnd. apply leb_NoDup_ltb; [apply sorted_leb|now apply sorted_NoDup].
Qed.

Lemma sorted_In (l : list Version) (v : Version) : In v (sorted l) <-> In v l.
Proof.
  split; apply Permutation_in; [apply sorted_perm|symmetry; apply sorted_perm].
Qed.

(** ** Grouping the routes by version (lines 54-62) *)

Lemma version_routes_ok (app : FastAPI) (dv : Version) :
  version_routes app dv = tagged_routes (routes app) dv.
Proof.
  unfold version_routes, version_to_route.
  induction (routes app) as [|[r|m|n] rs IH]; simpl; auto.
  now rewrite IH.
Qed.

Lemma static_mounts_filter (rs : list BaseRoute) :
  static_mounts_of (filter filter_static_mounts rs) = static_mounts_of rs.
Proof.
  induction rs as [|[r|m|n] rs IH]; simpl; auto. now rewrite IH.
Qed.

Lemma mapping_get_append_same (m : VersionRouteMapping) v r :
  mapping_get (mapping_append m v r) v = (mapping_get m v ++ [r])%list.
Proof.
  unfold mapping_append, mapping_get at 1.
  now rewrite (dict_get_set_same version_eqb version_eqb_eq).
Qed.

Lemma mapping_get_append_other (m : VersionRouteMapping) v w r :
  w <> v -> mapping_get (mapping_append m v r) w = mapping_get m w.
Proof.
  intros Hne. unfold mapping_append, mapping_get at 1.
  now rewrite (dict_get_set_other version_eqb version_eqb_eq) by assumption.
Qed.

Lemma group_routes_fold (vrs : list (Version * APIRoute)) st :
  let st' := fold_left
    (fun st vr => (mapping_append (fst st) (fst vr) (snd vr), Some (fst vr)))
    vrs st in
  (forall w, mapping_get (fst st') w = (mapping_get (fst st) w ++ bucket vrs w)%list)
  /\ (forall w, In w (dict_keys (fst st')) <->
                In w (dict_keys (fst st)) \/ In w (map fst vrs))
  /\ (NoDup (dict_keys (fst st)) -> NoDup (dict_keys (fst st')))
  /\ (vrs = [] -> snd st' = snd st)
  /\ (vrs <> [] -> exists w, snd st' = Some w).
Proof.
  revert st; induction vrs as [|[v r] vrs IH]; intros st; simpl.
  - split; [|split; [|split; [|split]]].
    + intros w. unfold bucket; simpl. now rewrite app_nil_r.
    + intros w; tauto.
    + auto.
    + auto.
    + congruence.
  - specialize (IH (mapping_append (fst st) v r, Some v)).
    simpl in IH. destruct IH as (Hget & Hkeys & Hnd & Hnil & Hsome).
    split; [|split; [|split; [|split]]].
    + intros w. rewrite Hget. unfold bucket; simpl.
      destruct (version_eqb v w) eqn:E; simpl.
      * apply version_eqb_eq in E; subst w.
        rewrite mapping_get_append_same, <- app_assoc. reflexivity.
      * rewrite mapping_get_append_other; [reflexivity|].
        intros ->. now rewrite (proj2 (version_eqb_eq v v)) in E.
    + intros w. rewrite Hkeys. unfold mapping_append.
      rewrite (dict_keys_set version_eqb version_eqb_eq). intuition congruence.
    + intros H; apply Hnd. unfold mapping_append.
      now apply (dict_keys_set_NoDup version_eqb version_eqb_eq).
    + discriminate.
    + intros _. destruct vrs as [|vr vrs'].
      * exists v. now rewrite Hnil.
      * apply Hsome. discriminate.
Qed.

Lemma group_routes_get (vrs : list (Version * APIRoute)) (w : Version) :
  mapping_get (fst (group_routes vrs)) w = bucket vrs w.
Proof.
  unfold group_routes.
  destruct (group_routes_fold vrs ([], None)) as (H & _). now rewrite H.
Qed.

Lemma group_routes_keys (vrs : list (Version * APIRoute)) (w : Version) :
  In w (dict_keys (fst (group_routes vrs))) <-> In w (map fst vrs).
Proof.
  unfold group_routes.
  destruct (group_routes_fold vrs ([], None)) as (_ & H & _).
  rewrite H. simpl. tauto.
Qed.

Lemma group_routes_NoDup (vrs : list (Version * APIRoute)) :
  NoDup (dict_keys (fst (group_routes vrs))).
Proof.
  unfold group_routes.
  destruct (group_routes_fold vrs ([], None)) as (_ & _ & H & _).
  apply H. constructor.
Qed.

Lemma group_routes_empty (vrs : list (Version * APIRoute)) :
  vrs = [] -> group_routes vrs = ([], None).
Proof. intros ->. reflexivity. Qed.

(** ** The running dictionary [unique_routes] (lines 78-80) *)

Lemma add_route_keys_get (p : string) (r : APIRoute) (ms : list string)
  (u : UniqueRoutes) (k : string) :
  lookup
    (fold_left (fun u method => dict_set String.eqb u (route_key p method) r) ms u) k
  = if in_dec string_dec k (map (route_key p) ms) then Some r else lookup u k.
Proof.
  revert u; induction ms as [|m ms IH]; intros u; simpl; [reflexivity|].
  rewrite IH.
  destruct (in_dec string_dec k (map (route_key p) ms)) as [Hin|Hnin].
  - destruct (string_dec (route_key p m) k); reflexivity.
  - destruct (string_dec (route_key p m) k) as [<-|Hne].
    + apply (dict_get_set_same String.eqb String.eqb_eq).
    + apply (dict_get_set_other String.eqb String.eqb_eq). congruence.
Qed.

Lemma add_route_get_in (u : UniqueRoutes) (r : APIRoute) (k : string) :
  In k (route_keys r) -> lookup (add_route u r) k = Some r.
Proof.
  intros Hin. unfold add_route. rewrite add_route_keys_get.
  fold (route_keys r). destruct (in_dec string_dec k (route_keys r)); tauto.
Qed.

Lemma add_route_get_notin (u : UniqueRoutes) (r : APIRoute) (k : string) :
  ~ In k (route_keys r) -> lookup (add_route u r) k = lookup u k.
Proof.
  intros Hin. unfold add_route. rewrite add_route_keys_get.
  fold (route_keys r). destruct (in_dec string_dec k (route_keys r)); tauto.
Qed.

Lemma add_route_NoDup (u : UniqueRoutes) (r : APIRoute) :
  NoDup (dict_keys u) -> NoDup (dict_keys (add_route u r)).
Proof.
  unfold add_route. generalize (methods r) as ms. intros ms; revert u.
  induction ms as [|m ms IH]; intros u Hnd; simpl; [assumption|].
  apply IH. now apply (dict_keys_set_NoDup String.eqb String.eqb_eq).
Qed.

Lemma add_routes_NoDup (u : UniqueRoutes) (b : list APIRoute) :
  NoDup (dict_keys u) -> NoDup (dict_keys (add_routes u b)).
Proof.
  unfold add_routes. revert u; induction b as [|r b IH]; intros u Hnd; simpl;
    [assumption|].
  apply IH. now apply add_route_NoDup.
Qed.

Lemma add_routes_app (u : UniqueRoutes) (b1 b2 : list APIRoute) :
  add_routes u (b1 ++ b2) = add_routes (add_routes u b1) b2.
Proof. unfold add_routes. apply fold_left_app. Qed.

Lemma add_routes_get_none (u : UniqueRoutes) (b : list APIRoute) (k : string) :
  (forall r, In r b -> ~ In k (route_keys r)) ->
  lookup (add_routes u b) k = lookup u k.
Proof.
  unfold add_routes. revert u; induction b as [|r b IH]; intros u Hb; simpl;
    [reflexivity|].
  rewrite IH by (intros r' Hr'; apply Hb; now right).
  apply add_route_get_notin. apply Hb; now left.
Qed.

Lemma add_routes_get_last (u : UniqueRoutes) (b1 b2 : list APIRoute)
  (r : APIRoute) (k : string) :
  In k (route_keys r) ->
  (forall r', In r' b2 -> ~ In k (route_keys r')) ->
  lookup (add_routes u (b1 ++ r :: b2)) k = Some r.
Proof.
  intros Hk Hb2. rewrite add_routes_app.
  change (r :: b2) with ([r] ++ b2)%list. rewrite add_routes_app.
  rewrite add_routes_get_none by assumption.
  simpl. now apply add_route_get_in.
Qed.

Lemma add_route_own_keys (u : UniqueRoutes) (r : APIRoute) :
  own_keys u -> own_keys (add_route u r).
Proof.
  intros Hu k r' Hget.
  destruct (in_dec string_dec k (route_keys r)) as [Hin|Hnin].
  - rewrite add_route_get_in in Hget by assumption. now injection Hget as <-.
  - rewrite add_route_get_notin in Hget by assumption. now apply Hu.
Qed.

Lemma add_routes_own_keys (u : UniqueRoutes) (b : list APIRoute) :
  own_keys u -> own_keys (add_routes u b).
Proof.
  unfold add_routes. revert u; induction b as [|r b IH]; intros u Hu; simpl;
    [assumption|].
  apply IH. now apply add_route_own_keys.
Qed.

(** ** The tables at the end of each iteration *)

Lemma tables_from_versions (m : VersionRouteMapping) (vs : list Version)
  (u : UniqueRoutes) :
  map fst (tables_from m vs u) = vs.
Proof.
  revert u; induction vs as [|v vs IH]; intros u; simpl; [reflexivity|].
  now rewrite IH.
Qed.

Lemma tables_from_In_version (m : VersionRouteMapping) (vs : list Version)
  (u : UniqueRoutes) (V : Version) (T : UniqueRoutes) :
  In (V, T) (tables_from m vs u) -> In V vs.
Proof.
  intros H. rewrite <- (tables_from_versions m vs u).
  change V with (fst (V, T)). now apply in_map.
Qed.

Lemma tables_from_version_In (m : VersionRouteMapping) (vs : list Version)
  (u : UniqueRoutes) (V : Version) :
  In V vs -> exists T, In (V, T) (tables_from m vs u).
Proof.
  intros H. rewrite <- (tables_from_versions m vs u) in H.
  apply in_map_iff in H. destruct H as ([V' T] & Heq & Hin).
  simpl in Heq; subst V'. now exists T.
Qed.

Lemma tables_from_NoDup_keys (m : VersionRouteMapping) (vs : list Version)
  (u : UniqueRoutes) (V : Version) (T : UniqueRoutes) :
  NoDup (dict_keys u) -> In (V, T) (tables_from m vs u) -> NoDup (dict_keys T).
Proof.
  revert u; induction vs as [|v vs IH]; intros u Hu; simpl; [intros []|].
  intros [[= <- <-]|Hin].
  - now apply add_routes_NoDup.
  - eapply IH; [|exact Hin]. now apply add_routes_NoDup.
Qed.

Lemma tables_from_own_keys (m : VersionRouteMapping) (vs : list Version)
  (u : UniqueRoutes) (V : Version) (T : UniqueRoutes) :
  own_keys u -> In (V, T) (tables_from m vs u) -> own_keys T.
Proof.
  revert u; induction vs as [|v vs IH]; intros u Hu; simpl; [intros []|].
  intros [[= <- <-]|Hin].
  - now apply add_routes_own_keys.
  - eapply IH; [|exact Hin]. now apply add_routes_own_keys.
Qed.

Lemma ascending_head_lt (v : Version) (vs : list Version) (w : Version) :
  ascending (v :: vs) -> In w vs -> version_ltb v w = true.
Proof.
  intros Hs Hin. inversion Hs as [|? ? _ Hall]; subst.
  rewrite Forall_forall in Hall. now apply Hall.
Qed.

Lemma ltb_not_leb (a b : Version) :
  version_ltb a b = true -> version_leb b a = true -> False.
Proof. unfold version_leb. intros ->. discriminate. Qed.

(** A key that no bucket up to [V] writes is read at [V] as before the loop. *)
Lemma tables_from_get_untouched (m : VersionRouteMapping) (k : string) :
  forall (vs : list Version) (u : UniqueRoutes) (V : Version) (T : UniqueRoutes),
  ascending vs ->
  In (V, T) (tables_from m vs u) ->
  (forall W r, In W vs -> version_leb W V = true ->
               In r (mapping_get m W) -> ~ In k (route_keys r)) ->
  lookup T k = lookup u k.
Proof.
  induction vs as [|v vs IH]; intros u V T Hs Hin Hfree; simpl in Hin; [destruct Hin|].
  destruct Hin as [[= <- <-]|Hin].
  - apply add_routes_get_none. intros r Hr.
    apply (Hfree v r); [now left|apply version_leb_refl|assumption].
  - assert (HV : In V vs) by (eapply tables_from_In_version; eassumption).
    assert (Hlt : version_ltb v V = true) by (eapply ascending_head_lt; eassumption).
    rewrite (IH (add_routes u (mapping_get m v)) V T);
      [| now inversion Hs | exact Hin |].
    + apply add_routes_get_none. intros r Hr.
      apply (Hfree v r); [now left| |assumption].
      now apply version_ltb_leb in Hlt.
    + intros W r HW. apply Hfree. now right.
Qed.

(** The last route of the highest bucket up to [V] that writes a key is
    what the table of [V] holds for it. *)
Lemma tables_from_get_highest (m : VersionRouteMapping) (k : string) :
  forall (vs : list Version) (u : UniqueRoutes) (V : Version) (T : UniqueRoutes)
         (W : Version) (b1 b2 : list APIRoute) (r : APIRoute),
  ascending vs ->
  In (V, T) (tables_from m vs u) ->
  In W vs -> version_leb W V = true ->
  mapping_get m W = (b1 ++ r :: b2)%list ->
  In k (route_keys r) ->
  (forall r', In r' b2 -> ~ In k (route_keys r')) ->
  (forall W' r', In W' vs -> version_ltb W W' = true -> version_leb W' V = true ->
                 In r' (mapping_get m W') -> ~ In k (route_keys r')) ->
  lookup T k = Some r.
Proof.
  induction vs as [|v vs IH];
    intros u V T W b1 b2 r Hs Hin HW HWV Hb Hk Hb2 Hfree; simpl in Hin;
    [destruct Hin|].
  destruct Hin as [[= <- <-]|Hin].
  - destruct HW as [<-|HW].
    + rewrite Hb. now apply add_routes_get_last.
    + exfalso. eapply ltb_not_leb; [|exact HWV].
      eapply ascending_head_lt; eassumption.
  - assert (HV : In V vs) by (eapply tables_from_In_version; eassumption).
    assert (Hlt : version_ltb v V = true) by (eapply ascending_head_lt; eassumption).
    destruct HW as [<-|HW].
    + rewrite (tables_from_get_untouched m k vs
                 (add_routes u (mapping_get m v)) V T);
        [| now inversion Hs | exact Hin |].
      * rewrite Hb. now apply add_routes_get_last.
      * intros W' r' HW' Hle. apply Hfree; [now right| |assumption].
        eapply ascending_head_lt; eassumption.
    + eapply (IH _ V T W b1 b2 r); try eassumption; [now inversion Hs|].
      intros W' r' HW'. apply Hfree. now right.
Qed.

(** Between two versions of the loop a key that no bucket in between
    writes keeps its value. *)
Lemma tables_from_get_inherited (m : VersionRouteMapping) (k : string) :
  forall (vs : list Version) (u : UniqueRoutes) (V1 V2 : Version)
         (T1 T2 : UniqueRoutes),
  ascending vs ->
  In (V1, T1) (tables_from m vs u) ->
  In (V2, T2) (tables_from m vs u) ->
  version_ltb V1 V2 = true ->
  (forall W r, In W vs -> version_ltb V1 W = true -> version_leb W V2 = true ->
               In r (mapping_get m W) -> ~ In k (route_keys r)) ->
  lookup T2 k = lookup T1 k.
Proof.
  induction vs as [|v vs IH]; intros u V1 V2 T1 T2 Hs H1 H2 Hlt Hfree;
    simpl in H1, H2; [destruct H1|].
  assert (Hs' : ascending vs) by now inversion Hs.
  destruct H1 as [[= <- <-]|H1], H2 as [[= <- <-]|H2].
  - now rewrite version_ltb_irrefl in Hlt.
  - apply (tables_from_get_untouched m k vs _ V2 T2 Hs' H2).
    intros W r HW Hle. apply Hfree; [now right| |assumption].
    eapply ascending_head_lt; eassumption.
  - exfalso. apply (ltb_not_leb v V1).
    + eapply ascending_head_lt; [exact Hs|].
      eapply tables_from_In_version; eassumption.
    + now apply version_ltb_leb in Hlt.
  - apply (IH _ V1 V2 T1 T2 Hs' H1 H2 Hlt).
    intros W r HW. apply Hfree. now right.
Qed.

(** ** Buckets and the versions present *)

Lemma bucket_In (vrs : list (Version * APIRoute)) (W : Version) (r : APIRoute) :
  In r (bucket vrs W) <-> In (W, r) vrs.
Proof.
  unfold bucket. rewrite in_map_iff. split.
  - intros ([W' r'] & Heq & Hin). simpl in Heq; subst r'.
    apply filter_In in Hin. destruct Hin as [Hin HW]. simpl in HW.
    apply version_eqb_eq in HW. now subst W'.
  - intros Hin. exists (W, r). split; [reflexivity|].
    apply filter_In. split; [assumption|]. simpl. now apply version_eqb_eq.
Qed.

Lemma bucket_split (l1 l2 : list (Version * APIRoute)) (W : Version) (r : APIRoute) :
  bucket (l1 ++ (W, r) :: l2) W = (bucket l1 W ++ r :: bucket l2 W)%list.
Proof.
  unfold bucket. rewrite filter_app, map_app. simpl.
  now rewrite (proj2 (version_eqb_eq W W) eq_refl).
Qed.

Lemma versions_present_In (app : FastAPI) (dv : Version) (V : Version) :
  In V (versions_present app dv) <->
  exists r, In (V, r) (tagged_routes (routes app) dv).
Proof.
  unfold versions_present. rewrite sorted_In, group_routes_keys, in_map_iff.
  split.
  - intros ([V' r] & Heq & Hin). simpl in Heq; subst V'. now exists r.
  - intros (r & Hin). now exists (V, r).
Qed.

Lemma versions_present_ascending (app : FastAPI) (dv : Version) :
  ascending (versions_present app dv).
Proof. apply sorted_ascending, group_routes_NoDup. Qed.

Lemma cumulative_tables_versions (app : FastAPI) (dv : Version) :
  map fst (cumulative_tables app dv) = versions_present app dv.
Proof. apply tables_from_versions. Qed.

Lemma cumulative_tables_In_version (app : FastAPI) (dv : Version) V T :
  In (V, T) (cumulative_tables app dv) -> In V (versions_present app dv).
Proof. apply tables_from_In_version. Qed.

Lemma cumulative_tables_NoDup_keys (app : FastAPI) (dv : Version) V T :
  In (V, T) (cumulative_tables app dv) -> NoDup (dict_keys T).
Proof. apply tables_from_NoDup_keys. constructor. Qed.

Lemma cumulative_tables_own_keys (app : FastAPI) (dv : Version) V T :
  In (V, T) (cumulative_tables app dv) -> own_keys T.
Proof. apply tables_from_own_keys. intros k r. discriminate. Qed.

(** ** The last iteration *)

Lemma final_table_app (m : VersionRouteMapping) (vs1 vs2 : list Version)
  (u : UniqueRoutes) :
  final_table m (vs1 ++ vs2) u = final_table m vs2 (final_table m vs1 u).
Proof. unfold final_table. apply fold_left_app. Qed.

Lemma tables_from_final (m : VersionRouteMapping) (vs : list Version)
  (u : UniqueRoutes) (d : Version) :
  vs <> [] -> In (last vs d, final_table m vs u) (tables_from m vs u).
Proof.
  revert u; induction vs as [|v vs IH]; intros u Hne; [congruence|].
  destruct vs as [|v' vs'].
  - simpl. now left.
  - right. apply (IH (add_routes u (mapping_get m v))). discriminate.
Qed.

Lemma last_In (vs : list Version) (d : Version) : vs <> [] -> In (last vs d) vs.
Proof.
  induction vs as [|v vs IH]; intros Hne; [congruence|].
  destruct vs as [|v' vs']; [now left|].
  right. apply IH. discriminate.
Qed.

Lemma ascending_last_max (vs : list Version) (d V : Version) :
  ascending vs -> In V vs -> version_leb V (last vs d) = true.
Proof.
  revert V; induction vs as [|v vs IH]; intros V Hs Hin; [destruct Hin|].
  destruct vs as [|v' vs'].
  - destruct Hin as [<-|[]]. apply version_leb_refl.
  - destruct Hin as [<-|Hin].
    + assert (H : version_ltb v (last (v' :: vs') d) = true).
      { eapply ascending_head_lt; [exact Hs|]. apply last_In. discriminate. }
      now apply version_ltb_leb in H.
    + apply IH; [now inversion Hs|assumption].
Qed.

(** ** Counting a route in the materialized list *)

Lemma count_occ_values (T : UniqueRoutes) (r : APIRoute) :
  count_occ APIRoute_eq_dec (dict_values T) r
  = List.length (filter (fun e => if APIRoute_eq_dec (snd e) r then true else false) T).
Proof.
  unfold dict_values. induction T as [|[k v] T IH]; simpl; [reflexivity|].
  destruct (APIRoute_eq_dec v r); simpl; now rewrite IH.
Qed.

Lemma NoDup_keys_filter (T : UniqueRoutes) (f : string * APIRoute -> bool) :
  NoDup (dict_keys T) -> NoDup (dict_keys (filter f T)).
Proof.
  unfold dict_keys. induction T as [|e T IH]; simpl; intros Hnd; [constructor|].
  inversion Hnd as [|? ? Hnotin Hnd']; subst.
  destruct (f e); simpl; [|auto].
  constructor; [|auto]. intros Hin. apply Hnotin.
  apply in_map_iff in Hin. destruct Hin as (e' & Heq & Hin).
  apply filter_In in Hin. rewrite <- Heq. apply in_map. tauto.
Qed.

Lemma route_key_inj_method (p a b : string) :
  route_key p a = route_key p b -> a = b.
Proof.
  unfold route_key. induction p as [|c p IH]; simpl; intros Heq.
  - now injection Heq.
  - injection Heq as Heq. auto.
Qed.

Lemma NoDup_map_inj {A B : Type} (f : A -> B) (l : list A) :
  (forall a b, f a = f b -> a = b) -> NoDup l -> NoDup (map f l).
Proof.
  intros Hinj. induction 1 as [|a l Hnotin Hnd IH]; simpl; constructor; auto.
  intros Hin. apply in_map_iff in Hin. destruct Hin as (b & Heq & Hb).
  apply Hinj in Heq. now subst b.
Qed.

Lemma route_keys_NoDup (r : APIRoute) : NoDup (methods r) -> NoDup (route_keys r).
Proof.
  intros Hnd. unfold route_keys. apply NoDup_map_inj; [|assumption].
  intros a b. apply route_key_inj_method.
Qed.

Lemma add_routes_get_kept (u : UniqueRoutes) (b : list APIRoute)
  (r : APIRoute) (k : string) :
  lookup u k = Some r ->
  (forall r', In r' b -> In k (route_keys r') -> r' = r) ->
  lookup (add_routes u b) k = Some r.
Proof.
  unfold add_routes. revert u; induction b as [|r0 b IH]; intros u Hu Hb; simpl;
    [assumption|].
  apply IH; [|intros r' Hr'; apply Hb; now right].
  destruct (in_dec string_dec k (route_keys r0)) as [Hin|Hnin].
  - rewrite add_route_get_in by assumption. f_equal. apply Hb; [now left|assumption].
  - now rewrite add_route_get_notin.
Qed.

Lemma tables_from_step (m : VersionRouteMapping) (vs : list Version)
  (u : UniqueRoutes) (V : Version) (T : UniqueRoutes) :
  In (V, T) (tables_from m vs u) -> exists u0, T = add_routes u0 (mapping_get m V).
Proof.
  revert u; induction vs as [|v vs IH]; intros u; simpl; [intros []|].
  intros [[= <- <-]|Hin]; [now exists u|eauto].
Qed.

(** ** The loops of [VersionedFastAPI] *)

Section Loops.
Variable format : string -> Z -> Z -> M string.
Variable fw : Framework.
Variable app : FastAPI.
Variables version_format prefix_format : string.
Variable kwargs : Kwargs.

Lemma version_step_inr (m : VersionRouteMapping) (st st' : Locals)
  (major minor : Z) :
  version_step format fw app version_format prefix_format kwargs m st (major, minor)
    = inr st' ->
  exists prefix semver,
    format prefix_format major minor = inr prefix /\
    format version_format major minor = inr semver /\
    unique_routes st' = add_routes (unique_routes st) (mapping_get m (major, minor)) /\
    version_var st' = Some (major, minor) /\
    p_title (parent_app st') = p_title (parent_app st) /\
    p_kwargs (parent_app st') = p_kwargs (parent_app st) /\
    p_routes (parent_app st') =
      (p_routes (parent_app st)
         ++ version_entries app kwargs prefix semver (unique_routes st'))%list.
Proof.
  unfold version_step, new_versioned_app, mount, get.
  destruct (format prefix_format major minor) as [e|prefix]; cbn [bind];
    [discriminate|].
  destruct (format version_format major minor) as [e|semver]; cbn [bind];
    [discriminate|].
  destruct (FastAPI_init fw _) as [e|[]]; cbn [bind ret]; [discriminate|].
  destruct (Mount_init fw _ _ _) as [e|[]]; cbn [bind ret]; [discriminate|].
  destruct (APIRoute_init fw _ _ _) as [e|[]]; cbn [bind ret]; [discriminate|].
  destruct (APIRoute_init fw _ _ _) as [e|[]]; cbn [bind ret]; [discriminate|].
  intros [= <-]. exists prefix, semver. simpl.
  repeat split. rewrite <- !app_assoc. reflexivity.
Qed.

Lemma for_versions_inr (m : VersionRouteMapping) :
  forall (vs : list Version) (st st' : Locals),
  for_versions format fw app version_format prefix_format kwargs m vs st = inr st' ->
  exists R,
    mounts_versions format app version_format prefix_format kwargs
      (tables_from m vs (unique_routes st)) R /\
    p_routes (parent_app st') = (p_routes (parent_app st) ++ R)%list /\
    p_title (parent_app st') = p_title (parent_app st) /\
    p_kwargs (parent_app st') = p_kwargs (parent_app st) /\
    unique_routes st' = final_table m vs (unique_routes st) /\
    version_var st' =
      match vs with [] => version_var st | _ => Some (last vs (0, 0)) end.
Proof.
  induction vs as [|[major minor] vs IH]; intros st st'; cbn [for_versions].
  - intros [= <-]. exists []. rewrite app_nil_r.
    repeat split. constructor.
  - destruct (version_step format fw app version_format prefix_format kwargs m st
                (major, minor)) as [e|st1] eqn:Hstep; cbn [bind];
      [discriminate|].
    intros Hloop.
    apply version_step_inr in Hstep.
    destruct Hstep as (prefix & semver & Hp & Hs & Hu & Hv & Ht & Hk & Hr).
    apply IH in Hloop.
    destruct Hloop as (R & HR & Hr' & Ht' & Hk' & Hu' & Hv').
    exists (version_entries app kwargs prefix semver (unique_routes st1) ++ R)%list.
    rewrite Hu in HR, Hu', Hr |- *.
    split; [|split; [|split; [|split; [|split]]]].
    + cbn [tables_from]. now constructor.
    + rewrite Hr', Hr, <- app_assoc. reflexivity.
    + congruence.
    + congruence.
    + exact Hu'.
    + rewrite Hv'. destruct vs; [exact Hv|reflexivity].
Qed.

Lemma static_entries_map (rs : list BaseRoute) :
  static_entries rs = map mount_entry (static_mounts_of rs).
Proof.
  induction rs as [|[r|mt|n] rs IH]; simpl; auto. now rewrite IH.
Qed.

Lemma mount_static_list_inr (ms : list Mount) :
  forall p p' : ParentApp,
  mount_static fw p ms = inr p' ->
  p' = {| p_title := p_title p;
          p_kwargs := p_kwargs p;
          p_routes := (p_routes p ++ map mount_entry ms)%list |}.
Proof.
  induction ms as [|mt ms IH]; intros p p'; cbn [mount_static].
  - intros [= <-]. simpl. rewrite app_nil_r. now destruct p.
  - unfold mount.
    destruct (Mount_init fw _ _ _) as [e|[]]; cbn [bind ret]; [discriminate|].
    intros H. apply IH in H. rewrite H. simpl.
    rewrite <- app_assoc. reflexivity.
Qed.

Lemma mount_static_inr (rs : list BaseRoute) (p p' : ParentApp) :
  mount_static fw p (static_mounts_of (filter filter_static_mounts rs)) = inr p' ->
  p' = {| p_title := p_title p;
          p_kwargs := p_kwargs p;
          p_routes := (p_routes p ++ static_entries rs)%list |}.
Proof.
  rewrite static_mounts_filter, static_entries_map. apply mount_static_list_inr.
Qed.

End Loops.

(** ** The whole function *)

Lemma versions_present_nil (app : FastAPI) (dv : Version) :
  versions_present app dv = [] <-> tagged_routes (routes app) dv = [].
Proof.
  unfold versions_present. split.
  - intros Hnil.
    destruct (tagged_routes (routes app) dv) as [|[v r] vrs] eqn:E; [reflexivity|].
    assert (Hin : In v (sorted (dict_keys (fst (group_routes ((v, r) :: vrs)))))).
    { apply sorted_In, group_routes_keys. now left. }
    rewrite Hnil in Hin. destruct Hin.
  - intros ->. reflexivity.
Qed.

Lemma group_routes_version_var (vrs : list (Version * APIRoute)) :
  vrs = [] -> snd (group_routes vrs) = None.
Proof. intros ->. reflexivity. Qed.

Section Whole.
Variable format : string -> Z -> Z -> M string.
Variable fw : Framework.
Variable app : FastAPI.
Variables version_format prefix_format : string.
Variable default_version : Version.
Variables enable_latest enable_legacy : bool.
Variable kwargs : Kwargs.

(** What a returned parent application looks like. *)
Lemma VersionedFastAPI_inr (parent : ParentApp) :
  VersionedFastAPI format fw app version_format prefix_format default_version
    enable_latest enable_legacy kwargs = inr parent ->
  p_title parent = title app /\ p_kwargs parent = kwargs /\
  exists R,
    mounts_versions format app version_format prefix_format kwargs
      (cumulative_tables app default_version) R /\
    ((enable_latest || enable_legacy = false /\ p_routes parent = R) \/
     (enable_latest || enable_legacy = true /\
      exists V semver,
        (if enable_latest
         then versions_present app default_version <> [] /\
              V = last (versions_present app default_version) (0, 0)
         else V = default_version) /\
        format version_format (fst V) (snd V) = inr semver /\
        p_routes parent =
          (R ++ static_entries (routes app)
             ++ [alias_entry app kwargs (if enable_latest then "/latest" else "")
                   semver (alias_table app default_version)])%list)).
Proof.
  unfold VersionedFastAPI, new_parent_app.
  destruct (existsb (String.eqb "title") (map fst kwargs)); cbn [bind ret raise];
    [discriminate|].
  destruct (FastAPI_init fw _) as [e|[]]; cbn [bind ret]; [discriminate|].
  rewrite version_routes_ok. cbv zeta.
  unfold cumulative_tables, alias_table, versions_present.
  set (vrs := tagged_routes (routes app) default_version).
  assert (Hvar := group_routes_version_var vrs).
  assert (Hnil := versions_present_nil app default_version).
  unfold versions_present in Hnil. fold vrs in Hnil.
  destruct (group_routes vrs) as [m ver]. cbn [fst snd] in *.
  set (vs := sorted (dict_keys m)) in *.
  match goal with
  | |- context [for_versions format fw app version_format prefix_format kwargs
                  m vs ?st0] =>
      destruct (for_versions format fw app version_format prefix_format kwargs
                  m vs st0) as [e|st] eqn:Hloop; cbn [bind]; [discriminate|]
  end.
  apply for_versions_inr in Hloop. cbn [parent_app unique_routes version_var] in Hloop.
  destruct Hloop as (R & HR & Hr & Ht & Hk & Hu & Hv).
  cbn [p_routes p_title p_kwargs app_nil_l] in Hr, Ht, Hk. simpl in Hr.
  unfold alias.
  destruct (enable_latest || enable_legacy) eqn:Hflags.
  - intros Halias.
    assert (Hver : exists V,
      (if enable_latest
       then match version_var st with
            | Some version => ret version
            | None => raise UnboundLocalError
            end
       else ret default_version) = inr V /\
      (if enable_latest then vs <> [] /\ V = last vs (0, 0) else V = default_version)).
    { destruct enable_latest.
      - destruct vs as [|v0 vs0] eqn:Evs.
        + rewrite Hv, Hvar in Halias by (now apply Hnil). discriminate.
        + rewrite Hv. eexists; split; [reflexivity|]. split; [discriminate|reflexivity].
      - eexists; split; reflexivity. }
    destruct Hver as (V & HV & HVspec). rewrite HV in Halias. cbn [bind] in Halias.
    destruct V as [major minor].
    destruct (format version_format major minor) as [e|semver] eqn:Hsem;
      cbn [bind] in Halias; [discriminate|].
    unfold new_versioned_app in Halias.
    destruct (FastAPI_init fw _) as [e|[]]; cbn [bind ret] in Halias;
      [discriminate|].
    destruct (mount_static fw (parent_app st) _) as [e|p1] eqn:Hstatic;
      cbn [bind] in Halias; [discriminate|].
    apply mount_static_inr in Hstatic. subst p1.
    unfold mount in Halias.
    destruct (Mount_init fw _ _ _) as [e|[]]; cbn [bind ret] in Halias;
      [discriminate|].
    injection Halias as <-. cbn [p_title p_kwargs p_routes].
    split; [exact Ht|]. split; [exact Hk|].
    exists R. split; [exact HR|]. right. split; [reflexivity|].
    exists (major, minor), semver. split; [exact HVspec|]. split; [exact Hsem|].
    rewrite Hr, Hu, <- app_assoc. reflexivity.
  - intros [= <-]. split; [exact Ht|]. split; [exact Hk|].
    exists R. split; [exact HR|]. left. split; [reflexivity|exact Hr].
Qed.

End Whole.

(** ** The sub-applications of the parent *)

Lemma sub_applications_app (rs1 rs2 : list ParentRoute) :
  sub_applications (rs1 ++ rs2) = (sub_applications rs1 ++ sub_applications rs2)%list.
Proof.
  induction rs1 as [|[p [a|s] n|p n t] rs1 IH]; simpl; auto.
  now rewrite IH.
Qed.

Lemma sub_applications_static (rs : list BaseRoute) :
  sub_applications (static_entries rs) = [].
Proof. induction rs as [|[r|m|n] rs IH]; simpl; auto. Qed.

Section SubApplications.
Variable format : string -> Z -> Z -> M string.
Variable app : FastAPI.
Variables version_format prefix_format : string.
Variable kwargs : Kwargs.

Lemma mounts_versions_sub_applications (tables : list (Version * UniqueRoutes))
  (R : list ParentRoute) :
  mounts_versions format app version_format prefix_format kwargs tables R ->
  Forall2 (mounted_for format version_format prefix_format)
          tables (sub_applications R).
Proof.
  induction 1 as [|major minor T tables prefix semver rest Hp Hs HR IH]; simpl.
  - constructor.
  - constructor; [|exact IH]. repeat split; assumption.
Qed.

End SubApplications.

Lemma Forall2_nth_error {A B : Type} (P : A -> B -> Prop) (l1 : list A)
  (l2 : list B) :
  Forall2 P l1 l2 ->
  forall i a b, nth_error l1 i = Some a -> nth_error l2 i = Some b -> P a b.
Proof.
  induction 1 as [|x y l1 l2 Hxy HF IH]; intros [|i] a b; simpl; try discriminate.
  - now intros [= <-] [= <-].
  - apply IH.
Qed.

Lemma Forall2_length_eq {A B : Type} (P : A -> B -> Prop) (l1 : list A)
  (l2 : list B) :
  Forall2 P l1 l2 -> List.length l1 = List.length l2.
Proof. induction 1; simpl; congruence. Qed.

Section Shape.
Variable format : string -> Z -> Z -> M string.
Variable fw : Framework.
Variable app : FastAPI.
Variables version_format prefix_format : string.
Variable default_version : Version.
Variables enable_latest enable_legacy : bool.
Variable kwargs : Kwargs.

(** The sub-applications of a returned parent: one per version present, in
    ascending order, then the alias if one is requested. *)
Lemma VersionedFastAPI_sub_applications (parent : ParentApp) :
  VersionedFastAPI format fw app version_format prefix_format default_version
    enable_latest enable_legacy kwargs = inr parent ->
  exists version_apps alias_apps,
    sub_applications (p_routes parent) = (version_apps ++ alias_apps)%list /\
    Forall2 (mounted_for format version_format prefix_format)
            (cumulative_tables app default_version) version_apps /\
    ((enable_latest || enable_legacy = false /\ alias_apps = []) \/
     (enable_latest || enable_legacy = true /\
      exists a,
        alias_apps = [(if enable_latest then "/latest" else "", a)] /\
        v_routes a = dict_values (alias_table app default_version))).
Proof.
  intros Hret. apply VersionedFastAPI_inr in Hret.
  destruct Hret as (_ & _ & R & HR & Hcases).
  exists (sub_applications R).
  pose proof (mounts_versions_sub_applications _ _ _ _ _ _ _ HR) as HF.
  destruct Hcases as [[Hflags Hr]|[Hflags (V & semver & _ & _ & Hr)]].
  - exists []. rewrite Hr, app_nil_r. split; [reflexivity|]. split; [exact HF|].
    left. now split.
  - eexists. rewrite Hr, !sub_applications_app, sub_applications_static.
    simpl. split; [reflexivity|]. split; [exact HF|].
    right. split; [exact Hflags|]. eexists. split; reflexivity.
Qed.

End Shape.

Lemma alias_table_highest (app : FastAPI) (dv : Version) :
  versions_present app dv <> [] ->
  In (last (versions_present app dv) (0, 0), alias_table app dv)
     (cumulative_tables app dv).
Proof. intros Hne. now apply tables_from_final. Qed.

Lemma alias_table_empty (app : FastAPI) (dv : Version) :
  tagged_routes (routes app) dv = [] -> alias_table app dv = [].
Proof.
  intros Hnil. unfold alias_table.
  now rewrite (proj2 (versions_present_nil app dv) Hnil).
Qed.

Lemma tagged_routes_mapping (app : FastAPI) (dv W : Version) :
  mapping_get (fst (group_routes (tagged_routes (routes app) dv))) W
  = bucket (tagged_routes (routes app) dv) W.
Proof. apply group_routes_get. Qed.

(** ** Keys and (path, method) pairs

    The key of a pair is the string [path|method].  For method names
    without [|] (every standard HTTP method) different pairs have different
    keys, so that a route writes the key of a pair exactly when it has this
    path and this method. *)

Lemma bar_free_app_bar (a b : string) : bar_free (a ++ String "|" b) = false.
Proof.
  unfold bar_free. induction a as [|c a IH]; simpl; [reflexivity|].
  rewrite IH. apply andb_false_r.
Qed.

Lemma route_key_inj (p1 m1 p2 m2 : string) :
  bar_free m1 = true -> bar_free m2 = true ->
  route_key p1 m1 = route_key p2 m2 -> p1 = p2 /\ m1 = m2.
Proof.
  unfold route_key. intros H1 H2. revert p2.
  induction p1 as [|c p1 IH]; intros [|c' p2]; simpl; intros Heq.
  - injection Heq as ->. now split.
  - injection Heq as <- ->.
    now rewrite bar_free_app_bar in H1.
  - injection Heq as -> <-. now rewrite bar_free_app_bar in H2.
  - injection Heq as <- Heq. destruct (IH p2 Heq) as [-> ->]. now split.
Qed.

Lemma route_keys_In_pair (r : APIRoute) (p method : string) :
  bar_free method = true ->
  Forall (fun m => bar_free m = true) (methods r) ->
  In (route_key p method) (route_keys r) <-> path r = p /\ In method (methods r).
Proof.
  intros Hm Hr. unfold route_keys. rewrite in_map_iff. split.
  - intros (m' & Heq & Hin).
    rewrite Forall_forall in Hr.
    destruct (route_key_inj _ _ _ _ (Hr m' Hin) Hm Heq) as [-> ->]. now split.
  - intros [<- Hin]. now exists method.
Qed.

(** * The cumulative route tables *)

(** C4.  The table of a version [V] present in the input maps a key
    [path|method] to the route registered at the highest version not above
    [V] that writes this key (the last such route in the order of the input
    when that version has several). *)
Theorem cumulative_table_highest_version
  (app : FastAPI) (default_version : Version)
  (V : Version) (T : UniqueRoutes) (p method : string)
  (W : Version) (r : APIRoute) (before after : list (Version * APIRoute)) :
  In (V, T) (cumulative_tables app default_version) ->
  tagged_routes (routes app) default_version = (before ++ (W, r) :: after)%list ->
  version_leb W V = true ->
  In (route_key p method) (route_keys r) ->
  (forall W' r', In (W', r') (tagged_routes (routes app) default_version) ->
                 In (route_key p method) (route_keys r') ->
                 version_leb W' V = true -> version_leb W' W = true) ->
  (forall r', In (W, r') after -> ~ In (route_key p method) (route_keys r')) ->
  lookup T (route_key p method) = Some r.
Proof.
  intros HT Hsplit HWV Hk Hhighest Hlast.
  unfold cumulative_tables in HT.
  eapply (tables_from_get_highest _ (route_key p method) _ _ V T W
            (bucket before W) (bucket after W) r).
  - apply versions_present_ascending.
  - exact HT.
  - apply versions_present_In. exists r. rewrite Hsplit.
    apply in_or_app; right; now left.
  - exact HWV.
  - rewrite tagged_routes_mapping, Hsplit. apply bucket_split.
  - exact Hk.
  - intros r' Hr'. apply Hlast. now apply bucket_In.
  - intros W' r' _ Hlt Hle Hr' Hk'.
    rewrite tagged_routes_mapping in Hr'. apply bucket_In in Hr'.
    apply (ltb_not_leb W W' Hlt). now apply (Hhighest W' r').
Qed.

Lemma cumulative_table_highest_version_witness :
  lookup [("/items|GET", scenario_B_new)] (route_key "/items" "GET")
  = Some scenario_B_new.
Proof.
  apply (cumulative_table_highest_version scenario_B (1, 0) (2, 0)
           [("/items|GET", scenario_B_new)] "/items" "GET" (2, 0) scenario_B_new
           [((1, 0), scenario_B_old)] []).
  - right; left; reflexivity.
  - reflexivity.
  - reflexivity.
  - left; reflexivity.
  - intros W' r' [[= <- <-]|[[= <- <-]|[]]] _ _; reflexivity.
  - intros r' [].
Defined.

(** C5.  Monotonic inheritance: for two versions [V1 < V2] present in the
    input, a key that the table of [V1] maps to a route and that no route
    tagged with a version in [(V1, V2]] writes is mapped to the same route
    by the table of [V2]. *)
Theorem cumulative_table_inherits
  (app : FastAPI) (default_version : Version)
  (V1 V2 : Version) (T1 T2 : UniqueRoutes) (p method : string) (r : APIRoute) :
  In (V1, T1) (cumulative_tables app default_version) ->
  In (V2, T2) (cumulative_tables app default_version) ->
  version_ltb V1 V2 = true ->
  lookup T1 (route_key p method) = Some r ->
  (forall W r', In (W, r') (tagged_routes (routes app) default_version) ->
                version_ltb V1 W = true -> version_leb W V2 = true ->
                ~ In (route_key p method) (route_keys r')) ->
  lookup T2 (route_key p method) = Some r.
Proof.
  intros H1 H2 Hlt Hget Hfree. rewrite <- Hget.
  unfold cumulative_tables in H1, H2.
  eapply tables_from_get_inherited;
    [apply versions_present_ascending|exact H1|exact H2|exact Hlt|].
  intros W r' _ HltW HleW Hr'.
  rewrite tagged_routes_mapping in Hr'. apply bucket_In in Hr'.
  now apply (Hfree W r').
Qed.

Lemma cumulative_table_inherits_witness :
  lookup [("/a|GET", scenario_C_a); ("/b|GET", scenario_C_b)] (route_key "/a" "GET")
  = Some scenario_C_a.
Proof.
  apply (cumulative_table_inherits scenario_C (1, 0) (1, 0) (2, 0)
           [("/a|GET", scenario_C_a)]
           [("/a|GET", scenario_C_a); ("/b|GET", scenario_C_b)]
           "/a" "GET" scenario_C_a).
  - left; reflexivity.
  - right; left; reflexivity.
  - reflexivity.
  - reflexivity.
  - intros W r' [[= <- <-]|[[= <- <-]|[]]] Hlt _.
    + discriminate Hlt.
    + simpl. intros [H|[]]. discriminate H.
Defined.

Lemma tagged_routes_nil (rs : list BaseRoute) (dv : Version) :
  tagged_routes rs dv = [] <-> filter filter_api_routes rs = [].
Proof.
  induction rs as [|[r|m|n] rs IH]; simpl; try exact IH; [tauto|].
  split; discriminate.
Qed.

(** * The alias *)

(** C6.  With [enable_latest] set, whatever [enable_legacy] is, a
    composition over an input with a versionable route mounts, after one
    sub-application per version present, exactly one more sub-application,
    at [/latest], and its routes are the values of the cumulative table of
    the highest version present. *)
Theorem latest_alias_highest_version
  (format : string -> Z -> Z -> M string) (fw : Framework) (app : FastAPI)
  (version_format prefix_format : string) (default_version : Version)
  (enable_legacy : bool) (kwargs : Kwargs) (parent : ParentApp) :
  filter filter_api_routes (routes app) <> [] ->
  VersionedFastAPI format fw app version_format prefix_format default_version
    true enable_legacy kwargs = inr parent ->
  exists V T version_apps a before,
    In (V, T) (cumulative_tables app default_version) /\
    (forall V', In V' (versions_present app default_version) ->
                version_leb V' V = true) /\
    p_routes parent = (before ++ [Parent_Mount "/latest" (App_Versioned a) None])%list /\
    sub_applications (p_routes parent) = (version_apps ++ [("/latest", a)])%list /\
    Forall2 (mounted_for format version_format prefix_format)
            (cumulative_tables app default_version) version_apps /\
    v_routes a = dict_values T.
Proof.
  intros Hroutes Hret.
  assert (Hne : versions_present app default_version <> []).
  { intros Hnil. apply Hroutes. apply (tagged_routes_nil _ default_version).
    now apply versions_present_nil. }
  apply VersionedFastAPI_inr in Hret.
  destruct Hret as (_ & _ & R & HR & [[Hflags _]|[_ (V & semver & [_ HV] & _ & Hr)]]);
    [discriminate|].
  exists V, (alias_table app default_version), (sub_applications R).
  eexists. exists (R ++ static_entries (routes app))%list.
  split; [subst V; now apply alias_table_highest|].
  split.
  { intros V' HV'. subst V.
    apply ascending_last_max; [apply versions_present_ascending|assumption]. }
  split; [rewrite Hr, <- app_assoc; reflexivity|].
  split.
  { rewrite Hr, !sub_applications_app, sub_applications_static. reflexivity. }
  split; [|reflexivity].
  eapply mounts_versions_sub_applications; exact HR.
Qed.

Lemma latest_alias_highest_version_witness :
  VersionedFastAPI str_format fastapi scenario_C default_version_format
    default_prefix_format (1, 0) true true [] = inr scenario_C_latest /\
  exists V T version_apps a before,
    In (V, T) (cumulative_tables scenario_C (1, 0)) /\
    (forall V', In V' (versions_present scenario_C (1, 0)) ->
                version_leb V' V = true) /\
    p_routes scenario_C_latest
      = (before ++ [Parent_Mount "/latest" (App_Versioned a) None])%list /\
    sub_applications (p_routes scenario_C_latest)
      = (version_apps ++ [("/latest", a)])%list /\
    Forall2 (mounted_for str_format default_version_format default_prefix_format)
            (cumulative_tables scenario_C (1, 0)) version_apps /\
    v_routes a = dict_values T.
Proof.
  split; [reflexivity|].
  apply (latest_alias_highest_version str_format fastapi scenario_C
           default_version_format default_prefix_format (1, 0) true []).
  - discriminate.
  - reflexivity.
Defined.

(** * Scenarios and route classes *)

(** C8.  Scenario A: one handler tagged [(1, 0)] at [GET /items], default
    configuration, any non-empty title (the framework refuses an empty
    one).  The parent holds exactly one sub-application, mounted at
    [/v1_0] and labelled [1.0]; its table holds exactly the key of
    [("/items", "GET")], mapped to the route, and its route list is that
    one route. *)
Theorem scenario_A_one_sub_application (id : nat) (name t d : string) :
  t <> "" ->
  let route := api_route id "/items" ["GET"] (version 1 0 (handler name None)) in
  let app := {| title := t; description := d; routes := [Route_API route] |} in
  let versioned_app :=
    {| v_title := t; v_description := d; v_version := "1.0"; v_args := [];
       v_routes := [route] |} in
  let parent :=
    {| p_title := t;
       p_kwargs := [];
       p_routes :=
         [Parent_Mount "/v1_0" (App_Versioned versioned_app) None;
          Parent_Get "/v1_0/docs" "1.0" ["Documentations"];
          Parent_Get "/v1_0/openapi.json" "1.0" ["Versions"]] |} in
  VersionedFastAPI str_format fastapi app default_version_format
    default_prefix_format default_default_version false false [] = inr parent /\
  sub_applications (p_routes parent) = [("/v1_0", versioned_app)] /\
  cumulative_tables app default_default_version
    = [((1, 0), [(route_key "/items" "GET", route)])] /\
  v_routes versioned_app
    = dict_values [(route_key "/items" "GET", route)].
Proof.
  intros Ht. cbv zeta.
  destruct t as [|c t]; [congruence|].
  split; [reflexivity|]. split; [reflexivity|]. split; reflexivity.
Qed.

Lemma scenario_A_one_sub_application_witness :
  let route := api_route 1 "/items" ["GET"] (version 1 0 (handler "items" None)) in
  let app := {| title := "Items"; description := ""; routes := [Route_API route] |} in
  let versioned_app :=
    {| v_title := "Items"; v_description := ""; v_version := "1.0"; v_args := [];
       v_routes := [route] |} in
  let parent :=
    {| p_title := "Items";
       p_kwargs := [];
       p_routes :=
         [Parent_Mount "/v1_0" (App_Versioned versioned_app) None;
          Parent_Get "/v1_0/docs" "1.0" ["Documentations"];
          Parent_Get "/v1_0/openapi.json" "1.0" ["Versions"]] |} in
  VersionedFastAPI str_format fastapi app default_version_format
    default_prefix_format default_default_version false false [] = inr parent /\
  sub_applications (p_routes parent) = [("/v1_0", versioned_app)] /\
  cumulative_tables app default_default_version
    = [((1, 0), [(route_key "/items" "GET", route)])] /\
  v_routes versioned_app
    = dict_values [(route_key "/items" "GET", route)].
Proof.
  apply (scenario_A_one_sub_application 1 "items" "Items" "").
  discriminate.
Defined.

(** C9.  A route of the input that is neither an API route nor a mount
    leaves no trace: the composition over the input with the route is the
    composition over the input without it, errors included. *)
Theorem unclassified_route_excluded
  (format : string -> Z -> Z -> M string) (fw : Framework) (t d : string)
  (before after : list BaseRoute) (route : BaseRoute)
  (version_format prefix_format : string) (default_version : Version)
  (enable_latest enable_legacy : bool) (kwargs : Kwargs) :
  filter_api_routes route = false ->
  filter_static_mounts route = false ->
  VersionedFastAPI format fw
    {| title := t; description := d; routes := (before ++ route :: after)%list |}
    version_format prefix_format default_version enable_latest enable_legacy kwargs
  = VersionedFastAPI format fw
      {| title := t; description := d; routes := (before ++ after)%list |}
      version_format prefix_format default_version enable_latest enable_legacy
      kwargs.
Proof.
  intros Hapi Hmount.
  unfold VersionedFastAPI, version_routes, new_parent_app, alias,
    version_step, new_versioned_app. cbn [routes title description].
  rewrite !filter_app. cbn [filter]. rewrite Hapi, Hmount. reflexivity.
Qed.

Lemma unclassified_route_excluded_witness :
  VersionedFastAPI str_format fastapi
    {| title := "app"; description := "";
       routes := [Route_API scenario_C_a; Route_Other "websocket";
                  Route_Mount static_files; Route_API scenario_C_b] |}
    default_version_format default_prefix_format (1, 0) false true []
  = VersionedFastAPI str_format fastapi
      {| title := "app"; description := "";
         routes := [Route_API scenario_C_a;
                    Route_Mount static_files; Route_API scenario_C_b] |}
      default_version_format default_prefix_format (1, 0) false true [].
Proof.
  apply (unclassified_route_excluded str_format fastapi "app" ""
           [Route_API scenario_C_a] [Route_Mount static_files; Route_API scenario_C_b]
           (Route_Other "websocket")); reflexivity.
Defined.

(** ** The legacy alias *)

(** Whatever the flags, the alias reads [unique_routes] as the loop over
    the versions left it: with a versionable route in the input, that is
    the table of the highest version present. *)
Lemma alias_routes_highest_version
  (format : string -> Z -> Z -> M string) (fw : Framework) (app : FastAPI)
  (version_format prefix_format : string) (default_version : Version)
  (enable_latest enable_legacy : bool) (kwargs : Kwargs) (parent : ParentApp) :
  filter filter_api_routes (routes app) <> [] ->
  enable_latest || enable_legacy = true ->
  VersionedFastAPI format fw app version_format prefix_format default_version
    enable_latest enable_legacy kwargs = inr parent ->
  exists V T version_apps a,
    In (V, T) (cumulative_tables app default_version) /\
    (forall V', In V' (versions_present app default_version) ->
                version_leb V' V = true) /\
    sub_applications (p_routes parent)
      = (version_apps ++ [(if enable_latest then "/latest" else "", a)])%list /\
    v_routes a = dict_values T.
Proof.
  intros Hroutes Hflags Hret.
  assert (Hne : versions_present app default_version <> []).
  { intros Hnil. apply Hroutes. apply (tagged_routes_nil _ default_version).
    now apply versions_present_nil. }
  apply VersionedFastAPI_sub_applications in Hret.
  destruct Hret as (version_apps & alias_apps & Hsub & _ & [[Hoff _]|[_ (a & -> & Ha)]]);
    [congruence|].
  exists (last (versions_present app default_version) (0, 0)),
         (alias_table app default_version), version_apps, a.
  split; [now apply alias_table_highest|].
  split; [|split; assumption].
  intros V' HV'.
  apply ascending_last_max; [apply versions_present_ascending|assumption].
Qed.

(** C1.  The input of scenario C with [enable_legacy]: the alias at the
    root is labelled with [default_version] ([1.0]) but lists the routes of
    the table of version [(2, 0)], [/b] included, which the table of
    [default_version] does not hold. *)
Theorem legacy_alias_lists_highest_version :
  cumulative_tables scenario_C (1, 0)
    = [((1, 0), [("/a|GET", scenario_C_a)]);
       ((2, 0), [("/a|GET", scenario_C_a); ("/b|GET", scenario_C_b)])] /\
  exists before,
    VersionedFastAPI str_format fastapi scenario_C default_version_format
      default_prefix_format (1, 0) false true []
    = inr {| p_title := "app";
             p_kwargs := [];
             p_routes :=
               (before ++
                [Parent_Mount ""
                   (App_Versioned
                      {| v_title := "app"; v_description := "";
                         v_version := "1.0"; v_args := [];
                         v_routes := [scenario_C_a; scenario_C_b] |}) None])%list |}.
Proof.
  split; [reflexivity|].
  exists (version_entries scenario_C [] "/v1_0" "1.0" [("/a|GET", scenario_C_a)]
          ++ version_entries scenario_C [] "/v2_0" "2.0"
               [("/a|GET", scenario_C_a); ("/b|GET", scenario_C_b)])%list.
  reflexivity.
Qed.

(** ** No versionable route *)

Lemma mount_static_accepted (fw : Framework) (ms : list Mount) :
  Forall (fun m => Mount_init fw (mount_path m) (App_Static (mount_app m))
                     (mount_name m) = inr tt) ms ->
  forall p : ParentApp,
  mount_static fw p ms
  = inr {| p_title := p_title p;
           p_kwargs := p_kwargs p;
           p_routes := (p_routes p ++ map mount_entry ms)%list |}.
Proof.
  induction 1 as [|m ms Hm Hms IH]; intros p; cbn [mount_static].
  - simpl. rewrite app_nil_r. now destruct p.
  - unfold mount. rewrite Hm. cbn [bind ret]. rewrite IH. simpl.
    rewrite <- app_assoc. reflexivity.
Qed.

(** Without a versionable route neither loop binds [version], and the
    latest alias reads it. *)
Lemma latest_alias_unbound_version
  (format : string -> Z -> Z -> M string) (fw : Framework) (app : FastAPI)
  (version_format prefix_format : string) (default_version : Version)
  (enable_legacy : bool) (kwargs : Kwargs) :
  filter filter_api_routes (routes app) = [] ->
  existsb (String.eqb "title") (map fst kwargs) = false ->
  FastAPI_init fw (("title", title app) :: kwargs) = inr tt ->
  VersionedFastAPI format fw app version_format prefix_format default_version
    true enable_legacy kwargs = inl UnboundLocalError.
Proof.
  intros Hroutes Htitle Hinit.
  unfold VersionedFastAPI, new_parent_app, version_routes.
  rewrite Htitle, Hinit, Hroutes. reflexivity.
Qed.

(** Without a versionable route and without an alias the parent is empty. *)
Lemma no_routes_no_alias
  (format : string -> Z -> Z -> M string) (fw : Framework) (app : FastAPI)
  (version_format prefix_format : string) (default_version : Version)
  (kwargs : Kwargs) :
  filter filter_api_routes (routes app) = [] ->
  existsb (String.eqb "title") (map fst kwargs) = false ->
  FastAPI_init fw (("title", title app) :: kwargs) = inr tt ->
  VersionedFastAPI format fw app version_format prefix_format default_version
    false false kwargs
  = inr {| p_title := title app; p_kwargs := kwargs; p_routes := [] |}.
Proof.
  intros Hroutes Htitle Hinit.
  unfold VersionedFastAPI, new_parent_app, version_routes.
  rewrite Htitle, Hinit, Hroutes. reflexivity.
Qed.

(** Without a versionable route the legacy alias is mounted at the root
    with no route, after the static mounts, when the framework accepts
    the calls. *)
Lemma legacy_alias_without_routes
  (format : string -> Z -> Z -> M string) (fw : Framework) (app : FastAPI)
  (version_format prefix_format : string) (default_version : Version)
  (kwargs : Kwargs) (semver : string) :
  filter filter_api_routes (routes app) = [] ->
  existsb (String.eqb "title") (map fst kwargs) = false ->
  FastAPI_init fw (("title", title app) :: kwargs) = inr tt ->
  format version_format (fst default_version) (snd default_version) = inr semver ->
  FastAPI_init fw (versioned_kwargs app kwargs semver) = inr tt ->
  Forall (fun m => Mount_init fw (mount_path m) (App_Static (mount_app m))
                     (mount_name m) = inr tt)
         (static_mounts_of (routes app)) ->
  Mount_init fw ""
    (App_Versioned {| v_title := title app;
                      v_description := description app;
                      v_version := semver;
                      v_args := args kwargs;
                      v_routes := [] |}) None = inr tt ->
  VersionedFastAPI format fw app version_format prefix_format default_version
    false true kwargs
  = inr {| p_title := title app;
           p_kwargs := kwargs;
           p_routes :=
             (static_entries (routes app)
                ++ [alias_entry app kwargs "" semver []])%list |}.
Proof.
  intros Hroutes Htitle Hinit Hsem Hsub Hstatic Hroot.
  unfold VersionedFastAPI, new_parent_app, version_routes.
  rewrite Htitle, Hinit, Hroutes. cbn [bind ret api_routes_of map group_routes fold_left].
  cbn [dict_keys map sorted fold_right for_versions bind ret].
  unfold alias. cbn [orb parent_app unique_routes bind ret].
  destruct default_version as [major minor]. cbn [fst snd] in Hsem.
  rewrite Hsem. cbn [bind]. unfold new_versioned_app. rewrite Hsub. cbn [bind ret].
  rewrite static_mounts_filter, (mount_static_accepted fw _ Hstatic). cbn [bind].
  unfold mount, append_routes.
  cbn [v_title v_description v_version v_args v_routes dict_values map List.app].
  rewrite Hroot. cbn [bind ret p_title p_kwargs p_routes].
  rewrite static_entries_map. reflexivity.
Qed.

(** C2.  Scenario D with [enable_latest]: no versionable route, one
    static mount.  The composition does not return: the alias branch reads
    the loop variable [version], which no iteration has bound. *)
Theorem latest_alias_without_routes_raises :
  filter filter_api_routes (routes scenario_D) = [] /\
  VersionedFastAPI str_format fastapi scenario_D default_version_format
    default_prefix_format default_default_version true false []
  = inl UnboundLocalError.
Proof. split; reflexivity. Qed.

Example scenario_D_legacy :
  VersionedFastAPI str_format fastapi scenario_D default_version_format
    default_prefix_format default_default_version false true []
  = inr {| p_title := "app";
           p_kwargs := [];
           p_routes :=
             [Parent_Mount "/static" (App_Static "StaticFiles") (Some "static");
              Parent_Mount ""
                (App_Versioned
                   {| v_title := "app"; v_description := ""; v_version := "1.0";
                      v_args := []; v_routes := [] |}) None] |}.
Proof. reflexivity. Qed.

(** * Mount prefixes *)

(** C3, as the code has it.  The two versions of scenario C under a prefix
    template without placeholder: both sub-applications are mounted at
    [/api] and the composition returns. *)
Lemma duplicate_prefixes_are_mounted :
  exists before a1 between a2 rest,
    VersionedFastAPI str_format fastapi scenario_C default_version_format "/api"
      default_default_version false false []
    = inr {| p_title := "app";
             p_kwargs := [];
             p_routes :=
               (before ++ Parent_Mount "/api" (App_Versioned a1) None
                  :: between ++ Parent_Mount "/api" (App_Versioned a2) None
                  :: rest)%list |} /\
    v_version a1 = "1.0" /\ v_version a2 = "2.0".
Proof.
  exists [].
  eexists. exists [Parent_Get "/api/docs" "1.0" ["Documentations"];
                   Parent_Get "/api/openapi.json" "1.0" ["Versions"]].
  eexists. eexists. split; [reflexivity|]. split; reflexivity.
Qed.

(** C3, amended.  The function compares no prefixes.  Whenever it
    returns, the sub-applications of the parent are, in mounting order, one
    per version present in ascending order, each mounted at the prefix its
    version formats to, then the alias at [/latest] or at the root if one
    is requested, whether or not some of these prefixes are equal. *)
Theorem mounts_without_prefix_check
  (format : string -> Z -> Z -> M string) (fw : Framework) (app : FastAPI)
  (version_format prefix_format : string) (default_version : Version)
  (enable_latest enable_legacy : bool) (kwargs : Kwargs) (parent : ParentApp) :
  VersionedFastAPI format fw app version_format prefix_format default_version
    enable_latest enable_legacy kwargs = inr parent ->
  exists version_apps alias_apps,
    sub_applications (p_routes parent) = (version_apps ++ alias_apps)%list /\
    Forall2 (mounted_for format version_format prefix_format)
            (cumulative_tables app default_version) version_apps /\
    ((enable_latest || enable_legacy = false /\ alias_apps = []) \/
     (enable_latest || enable_legacy = true /\
      exists a, alias_apps = [(if enable_latest then "/latest" else "", a)])).
Proof.
  intros Hret.
  destruct (VersionedFastAPI_sub_applications _ _ _ _ _ _ _ _ _ _ Hret)
    as (version_apps & alias_apps & Hsub & HF & Halias).
  exists version_apps, alias_apps.
  split; [exact Hsub|]. split; [exact HF|].
  destruct Halias as [H|[Hflags (a & Ha & _)]]; [now left|].
  right. split; [exact Hflags|]. now exists a.
Qed.

Lemma mounts_without_prefix_check_witness :
  exists parent,
    VersionedFastAPI str_format fastapi scenario_C default_version_format "/api"
      default_default_version true false [] = inr parent /\
    exists version_apps alias_apps,
      sub_applications (p_routes parent) = (version_apps ++ alias_apps)%list /\
      Forall2 (mounted_for str_format default_version_format "/api")
              (cumulative_tables scenario_C default_default_version) version_apps /\
      ((true || false = false /\ alias_apps = []) \/
       (true || false = true /\
        exists a, alias_apps = [(if true then "/latest" else "", a)])).
Proof.
  eexists. split; [reflexivity|].
  apply (mounts_without_prefix_check str_format fastapi scenario_C
           default_version_format "/api" default_default_version true false []).
  reflexivity.
Defined.

(** * Route objects in the route lists *)

Lemma dict_values_In (T : UniqueRoutes) (r : APIRoute) :
  In r (dict_values T) <-> exists k, In (k, r) T.
Proof.
  unfold dict_values. rewrite in_map_iff. split.
  - intros ([k r'] & Heq & Hin). simpl in Heq; subst r'. now exists k.
  - intros (k & Hin). now exists (k, r).
Qed.

Lemma nth_error_versions_tables (app : FastAPI) (dv : Version) (i : nat)
  (V : Version) :
  nth_error (versions_present app dv) i = Some V ->
  exists T, nth_error (cumulative_tables app dv) i = Some (V, T).
Proof.
  rewrite <- cumulative_tables_versions, nth_error_map.
  destruct (nth_error (cumulative_tables app dv) i) as [[V' T]|]; simpl;
    [|discriminate].
  intros [= ->]. now exists T.
Qed.

(** The sub-application at the position of a version among the versions
    present lists the values of the table of that version. *)
Lemma sub_application_of_version
  (format : string -> Z -> Z -> M string) (fw : Framework) (app : FastAPI)
  (version_format prefix_format : string) (default_version : Version)
  (enable_latest enable_legacy : bool) (kwargs : Kwargs) (parent : ParentApp)
  (i : nat) (V : Version) (pa : string * VersionedApp) :
  VersionedFastAPI format fw app version_format prefix_format default_version
    enable_latest enable_legacy kwargs = inr parent ->
  nth_error (versions_present app default_version) i = Some V ->
  nth_error (sub_applications (p_routes parent)) i = Some pa ->
  exists T,
    In (V, T) (cumulative_tables app default_version) /\
    mounted_for format version_format prefix_format (V, T) pa.
Proof.
  intros Hret HV Hpa.
  apply VersionedFastAPI_sub_applications in Hret.
  destruct Hret as (version_apps & alias_apps & Hsub & HF & _).
  destruct (nth_error_versions_tables _ _ _ _ HV) as [T HT].
  exists T. split; [eapply nth_error_In; exact HT|].
  assert (Hlen : (i < List.length version_apps)%nat).
  { rewrite <- (Forall2_length_eq _ _ _ HF).
    apply nth_error_Some. congruence. }
  rewrite Hsub, nth_error_app1 in Hpa by assumption.
  exact (Forall2_nth_error _ _ _ HF i _ _ HT Hpa).
Qed.




(** * Routes with several methods *)

(** C10, as the code has it.  A route with the two methods [GET] and [POST]
    followed, at the same version, by a route for [GET] on the same path:
    the table maps the [GET] key to the second route, and the first one is
    once, not twice, in the route list of the sub-application. *)
Lemma multi_method_route_overwritten_in_bucket :
  let app := make_app [Route_API two_methods; Route_API get_again] in
  exists T a before,
    cumulative_tables app default_default_version = [((1, 0), T)] /\
    lookup T (route_key "/x" "GET") = Some get_again /\
    VersionedFastAPI str_format fastapi app default_version_format default_prefix_format
      default_default_version false false []
    = inr {| p_title := "app"; p_kwargs := [];
             p_routes := Parent_Mount "/v1_0" (App_Versioned a) None :: before |} /\
    v_routes a = dict_values T /\
    count_occ APIRoute_eq_dec (v_routes a) two_methods = 1%nat /\
    List.length (methods two_methods) = 2%nat.
Proof.
  cbv zeta. do 3 eexists.
  split; [reflexivity|]. split; [reflexivity|]. split; [reflexivity|].
  split; [reflexivity|]. split; reflexivity.
Qed.

Lemma maps_to_iff (T : UniqueRoutes) (k : string) (r : APIRoute) :
  maps_to T k r = true <-> lookup T k = Some r.
Proof.
  unfold maps_to. destruct (lookup T k) as [r'|]; [|split; discriminate].
  destruct (APIRoute_eq_dec r' r) as [->|Hne]; split; auto; try discriminate.
  intros [= ->]. contradiction.
Qed.

Lemma filter_map_length {A B : Type} (f : A -> B) (g : B -> bool) (l : list A) :
  List.length (filter g (map f l)) = List.length (filter (fun a => g (f a)) l).
Proof.
  induction l as [|a l IH]; simpl; [reflexivity|].
  destruct (g (f a)); simpl; now rewrite IH.
Qed.

(** A route is in the list of values once per key of its own that the
    table maps to it. *)
Lemma count_occ_maps_to (T : UniqueRoutes) (r : APIRoute) :
  NoDup (dict_keys T) -> own_keys T -> NoDup (methods r) ->
  count_occ APIRoute_eq_dec (dict_values T) r
  = List.length
      (filter (fun method => maps_to T (route_key (path r) method) r) (methods r)).
Proof.
  intros Hnd Hown Hset. rewrite count_occ_values.
  set (f := fun e : string * APIRoute =>
              if APIRoute_eq_dec (snd e) r then true else false).
  rewrite <- (filter_map_length (route_key (path r)) (fun k => maps_to T k r)).
  fold (route_keys r).
  rewrite <- (length_map fst (filter f T)).
  apply Permutation_length, NoDup_Permutation.
  - apply (NoDup_keys_filter T f Hnd).
  - apply NoDup_filter. now apply route_keys_NoDup.
  - intros k. rewrite in_map_iff, filter_In, maps_to_iff. split.
    + intros ([k' v] & Heq & Hin). simpl in Heq; subst k'.
      apply filter_In in Hin. destruct Hin as [Hin Hf].
      unfold f in Hf; simpl in Hf.
      destruct (APIRoute_eq_dec v r) as [->|]; [|discriminate].
      assert (Hget : lookup T k = Some r)
        by now apply (In_dict_get String.eqb String.eqb_eq).
      split; [now apply Hown|exact Hget].
    + intros [_ Hget]. exists (k, r). split; [reflexivity|].
      apply filter_In. split.
      * now apply (dict_get_In String.eqb String.eqb_eq).
      * unfold f; simpl. destruct (APIRoute_eq_dec r r); congruence.
Qed.

(** C10, amended.  For a versionable route and each of its methods whose
    key [path|method] no other route registered after it at the same
    version writes: the table of its version maps this key to the route,
    and in the table of every later version [V] the key is still mapped to
    it if no route tagged in between (up to [V]) writes it.  The route is
    in the route list of the sub-application of its version once per key
    that the table maps to it: [k] times for [k] methods when none of its
    keys is overwritten at its version. *)
Theorem multi_method_route
  (format : string -> Z -> Z -> M string)
  (version_format prefix_format : string)
  (app : FastAPI) (default_version : Version)
  (W : Version) (r : APIRoute) (before after : list (Version * APIRoute))
  (T : UniqueRoutes) :
  tagged_routes (routes app) default_version = (before ++ (W, r) :: after)%list ->
  NoDup (methods r) ->
  In (W, T) (cumulative_tables app default_version) ->
  (forall method, In method (methods r) ->
     (forall r', In (W, r') after ->
                 In (route_key (path r) method) (route_keys r') -> r' = r) ->
     lookup T (route_key (path r) method) = Some r /\
     forall V T',
       In (V, T') (cumulative_tables app default_version) ->
       version_ltb W V = true ->
       (forall W' r', In (W', r') (tagged_routes (routes app) default_version) ->
                      version_ltb W W' = true -> version_leb W' V = true ->
                      ~ In (route_key (path r) method) (route_keys r')) ->
       lookup T' (route_key (path r) method) = Some r) /\
  (forall pa, mounted_for format version_format prefix_format (W, T) pa ->
     count_occ APIRoute_eq_dec (v_routes (snd pa)) r
     = List.length
         (filter (fun method => maps_to T (route_key (path r) method) r)
                 (methods r)) /\
     ((forall method r', In method (methods r) -> In (W, r') after ->
                         In (route_key (path r) method) (route_keys r') -> r' = r) ->
      count_occ APIRoute_eq_dec (v_routes (snd pa)) r = List.length (methods r))).
Proof.
  intros Hsplit Hset HT.
  assert (Hkey : forall method, In method (methods r) ->
            (forall r', In (W, r') after ->
                        In (route_key (path r) method) (route_keys r') -> r' = r) ->
            lookup T (route_key (path r) method) = Some r).
  { intros method Hm Hafter. unfold cumulative_tables in HT.
    destruct (tables_from_step _ _ _ _ _ HT) as [u0 ->].
    rewrite tagged_routes_mapping, Hsplit, bucket_split.
    rewrite add_routes_app.
    change (r :: bucket after W) with ([r] ++ bucket after W)%list.
    rewrite add_routes_app. apply add_routes_get_kept.
    - simpl. apply add_route_get_in. unfold route_keys. now apply in_map.
    - intros r' Hr' Hk'. apply Hafter; [now apply bucket_In|assumption]. }
  split.
  - intros method Hm Hafter. split; [now apply Hkey|].
    intros V T' HT' Hlt Hfree.
    rewrite <- (Hkey method Hm Hafter).
    unfold cumulative_tables in HT, HT'.
    eapply tables_from_get_inherited;
      [apply versions_present_ascending|exact HT|exact HT'|exact Hlt|].
    intros W' r' _ HltW HleW Hr'.
    rewrite tagged_routes_mapping in Hr'. apply bucket_In in Hr'.
    now apply (Hfree W' r').
  - intros pa (_ & _ & Hroutes). cbn [snd] in Hroutes. rewrite Hroutes.
    assert (Hcount := count_occ_maps_to T r
                        (cumulative_tables_NoDup_keys _ _ _ _ HT)
                        (cumulative_tables_own_keys _ _ _ _ HT) Hset).
    split; [exact Hcount|].
    intros Hall. rewrite Hcount. f_equal.
    apply forallb_filter_id. apply forallb_forall. intros method Hm.
    apply maps_to_iff. apply Hkey; [exact Hm|].
    intros r'. now apply Hall.
Qed.

Lemma multi_method_route_witness :
  (forall method, In method (methods two_methods) ->
     (forall r', In ((1, 0), r') [((1, 0), get_again)] ->
                 In (route_key (path two_methods) method) (route_keys r') ->
                 r' = two_methods) ->
     lookup [("/x|GET", get_again); ("/x|POST", two_methods)]
            (route_key (path two_methods) method) = Some two_methods /\
     forall V T',
       In (V, T') (cumulative_tables scenario_overwritten (1, 0)) ->
       version_ltb (1, 0) V = true ->
       (forall W' r',
          In (W', r') (tagged_routes (routes scenario_overwritten) (1, 0)) ->
          version_ltb (1, 0) W' = true -> version_leb W' V = true ->
          ~ In (route_key (path two_methods) method) (route_keys r')) ->
       lookup T' (route_key (path two_methods) method) = Some two_methods) /\
  (forall pa,
     mounted_for str_format default_version_format default_prefix_format
       ((1, 0), [("/x|GET", get_again); ("/x|POST", two_methods)]) pa ->
     count_occ APIRoute_eq_dec (v_routes (snd pa)) two_methods
     = List.length
         (filter
            (fun method =>
               maps_to [("/x|GET", get_again); ("/x|POST", two_methods)]
                 (route_key (path two_methods) method) two_methods)
            (methods two_methods)) /\
     ((forall method r', In method (methods two_methods) ->
                         In ((1, 0), r') [((1, 0), get_again)] ->
                         In (route_key (path two_methods) method) (route_keys r') ->
                         r' = two_methods) ->
      count_occ APIRoute_eq_dec (v_routes (snd pa)) two_methods
      = List.length (methods two_methods))).
Proof.
  apply (multi_method_route str_format default_version_format
           default_prefix_format scenario_overwritten (1, 0) (1, 0) two_methods
           [] [((1, 0), get_again)]
           [("/x|GET", get_again); ("/x|POST", two_methods)]).
  - reflexivity.
  - repeat constructor; simpl; intuition discriminate.
  - left; reflexivity.
Defined.

(** * Exceptions of the function *)

Lemma existsb_title_In (kwargs : Kwargs) :
  existsb (String.eqb "title") (map fst kwargs) = true <->
  In "title" (map fst kwargs).
Proof.
  rewrite existsb_exists. split.
  - intros (x & Hin & Heq). apply String.eqb_eq in Heq. now subst x.
  - intros Hin. exists "title". split; [assumption|reflexivity].
Qed.

Lemma title_keyword_TypeError
  (format : string -> Z -> Z -> M string) (fw : Framework) (app : FastAPI)
  (version_format prefix_format : string) (default_version : Version)
  (enable_latest enable_legacy : bool) (kwargs : Kwargs) :
  In "title" (map fst kwargs) ->
  VersionedFastAPI format fw app version_format prefix_format default_version
    enable_latest enable_legacy kwargs = inl TypeError.
Proof.
  intros Hin. apply existsb_title_In in Hin.
  unfold VersionedFastAPI, new_parent_app. now rewrite Hin.
Qed.

(** A [title] among the keyword arguments makes line 46 raise [TypeError],
    whatever the routes, the templates and the flags are. *)
Theorem title_keyword_raises
  (format : string -> Z -> Z -> M string) (fw : Framework) (app : FastAPI)
  (version_format prefix_format : string) (default_version : Version)
  (enable_latest enable_legacy : bool) (kwargs : Kwargs) :
  In "title" (map fst kwargs) ->
  VersionedFastAPI format fw app version_format prefix_format default_version
    enable_latest enable_legacy kwargs = inl TypeError.
Proof.
  apply title_keyword_TypeError.
Qed.

Lemma title_keyword_raises_witness :
  VersionedFastAPI str_format fastapi scenario_C default_version_format
    default_prefix_format (1, 0) false false
    [("description", "API"); ("title", "Other")] = inl TypeError.
Proof.
  apply title_keyword_raises. right; left; reflexivity.
Defined.

Section Exceptions.
Variable format : string -> Z -> Z -> M string.
Variable fw : Framework.
Variable app : FastAPI.
Variables version_format prefix_format : string.
Variable kwargs : Kwargs.

Ltac runtime_raise :=
  match goal with
  | H : format prefix_format ?a ?b = inl ?e
    |- raised_by_runtime _ _ _ _ ?e =>
      left; exists prefix_format, a, b; split; [now left|exact H]
  | H : format version_format ?a ?b = inl ?e
    |- raised_by_runtime _ _ _ _ ?e =>
      left; exists version_format, a, b; split; [now right|exact H]
  | H : FastAPI_init fw ?kw = inl ?e |- raised_by_runtime _ _ _ _ ?e =>
      right; left; exists kw; exact H
  | H : Mount_init fw ?p ?a ?n = inl ?e |- raised_by_runtime _ _ _ _ ?e =>
      right; right; left; exists p, a, n; exact H
  | H : APIRoute_init fw ?p ?n ?t = inl ?e |- raised_by_runtime _ _ _ _ ?e =>
      right; right; right; exists p, n, t; exact H
  end.

(** An iteration of the loop over the versions raises only what the
    runtime raises. *)
Lemma version_step_inl (m : VersionRouteMapping) (st : Locals) (v : Version)
  (e : Exception) :
  version_step format fw app version_format prefix_format kwargs m st v = inl e ->
  raised_by_runtime format fw version_format prefix_format e.
Proof.
  destruct v as [major minor].
  unfold version_step, new_versioned_app, mount, get.
  destruct (format prefix_format major minor) as [e1|prefix] eqn:Hp; cbn [bind].
  { intros [= <-]. runtime_raise. }
  destruct (format version_format major minor) as [e1|semver] eqn:Hs; cbn [bind].
  { intros [= <-]. runtime_raise. }
  destruct (FastAPI_init fw _) as [e1|[]] eqn:H1; cbn [bind ret].
  { intros [= <-]. runtime_raise. }
  destruct (Mount_init fw _ _ _) as [e1|[]] eqn:H2; cbn [bind ret].
  { intros [= <-]. runtime_raise. }
  destruct (APIRoute_init fw (prefix ++ "/docs") _ _) as [e1|[]] eqn:H3;
    cbn [bind ret].
  { intros [= <-]. runtime_raise. }
  destruct (APIRoute_init fw (prefix ++ "/openapi.json") _ _) as [e1|[]] eqn:H4;
    cbn [bind ret].
  { intros [= <-]. runtime_raise. }
  discriminate.
Qed.

Lemma for_versions_inl (m : VersionRouteMapping) :
  forall (vs : list Version) (st : Locals) (e : Exception),
  for_versions format fw app version_format prefix_format kwargs m vs st = inl e ->
  raised_by_runtime format fw version_format prefix_format e.
Proof.
  induction vs as [|v vs IH]; intros st e; cbn [for_versions]; [discriminate|].
  destruct (version_step format fw app version_format prefix_format kwargs m st v)
    as [e1|st1] eqn:Hstep; cbn [bind].
  - intros [= <-]. eapply version_step_inl; exact Hstep.
  - apply IH.
Qed.

Lemma mount_static_inl (ms : list Mount) :
  forall (p : ParentApp) (e : Exception),
  mount_static fw p ms = inl e ->
  raised_by_runtime format fw version_format prefix_format e.
Proof.
  induction ms as [|mt ms IH]; intros p e; cbn [mount_static]; [discriminate|].
  unfold mount.
  destruct (Mount_init fw _ _ _) as [e1|[]] eqn:H1; cbn [bind ret].
  - intros [= <-]. runtime_raise.
  - apply IH.
Qed.

End Exceptions.

Section ExceptionsWhole.
Variable format : string -> Z -> Z -> M string.
Variable fw : Framework.
Variable app : FastAPI.
Variables version_format prefix_format : string.
Variable default_version : Version.
Variables enable_latest enable_legacy : bool.
Variable kwargs : Kwargs.

(** The function raises of its own in two ways only: [TypeError] for a
    [title] among the keyword arguments, and [UnboundLocalError] when the
    latest alias is requested and the input has no versionable route.
    Every other exception comes out of the runtime: out of one of the two
    templates when it is formatted, or out of a call of the framework
    ([FastAPI], [mount], [get]). *)
Theorem VersionedFastAPI_raises (e : Exception) :
  VersionedFastAPI format fw app version_format prefix_format default_version
    enable_latest enable_legacy kwargs = inl e ->
  (e = TypeError /\ In "title" (map fst kwargs)) \/
  (e = UnboundLocalError /\ enable_latest = true /\
   filter filter_api_routes (routes app) = []) \/
  raised_by_runtime format fw version_format prefix_format e.
Proof.
  unfold VersionedFastAPI, new_parent_app.
  destruct (existsb (String.eqb "title") (map fst kwargs)) eqn:Htitle;
    cbn [bind ret raise].
  { intros [= <-]. left. split; [reflexivity|now apply existsb_title_In]. }
  destruct (FastAPI_init fw _) as [e1|[]] eqn:Hinit; cbn [bind ret].
  { intros [= <-]. right; right. right; left. eexists; exact Hinit. }
  rewrite version_routes_ok. cbv zeta.
  assert (Hnil := versions_present_nil app default_version).
  unfold versions_present in Hnil.
  set (vrs := tagged_routes (routes app) default_version) in *.
  assert (Hvar := group_routes_version_var vrs).
  destruct (group_routes vrs) as [m ver]. cbn [fst snd] in *.
  set (vs := sorted (dict_keys m)) in *.
  match goal with
  | |- context [for_versions format fw app version_format prefix_format kwargs
                  m vs ?st0] =>
      destruct (for_versions format fw app version_format prefix_format kwargs
                  m vs st0) as [e'|st] eqn:Hloop; cbn [bind]
  end.
  { intros [= <-]. right; right. eapply for_versions_inl; exact Hloop. }
  apply for_versions_inr in Hloop. cbn [version_var] in Hloop.
  destruct Hloop as (R & _ & _ & _ & _ & _ & Hv).
  unfold alias.
  assert (Htail : forall major minor,
    (semver <- format version_format major minor ;;
     versioned_app <- new_versioned_app fw app kwargs semver ;;
     parent_app <- mount_static fw (parent_app st)
                     (static_mounts_of (filter filter_static_mounts (routes app))) ;;
     mount fw parent_app (if enable_latest then "/latest" else "")
       (App_Versioned (append_routes versioned_app (dict_values (unique_routes st))))
       None) = inl e ->
    raised_by_runtime format fw version_format prefix_format e).
  { intros major minor.
    destruct (format version_format major minor) as [e'|semver] eqn:Hsem;
      cbn [bind].
    { intros [= <-]. left. exists version_format, major, minor.
      split; [now right|exact Hsem]. }
    unfold new_versioned_app.
    destruct (FastAPI_init fw (versioned_kwargs app kwargs semver))
      as [e'|[]] eqn:H1; cbn [bind ret].
    { intros [= <-]. right; left. eexists; exact H1. }
    destruct (mount_static fw _ _) as [e'|p1] eqn:H2; cbn [bind].
    { intros [= <-]. eapply mount_static_inl; exact H2. }
    unfold mount.
    destruct (Mount_init fw _ _ _) as [e'|[]] eqn:H3; cbn [bind ret].
    { intros [= <-]. right; right; left. do 3 eexists; exact H3. }
    discriminate. }
  destruct enable_latest; cbn [orb].
  - destruct (version_var st) as [[major minor]|] eqn:Hst; cbn [bind ret raise].
    + intros H. right; right. exact (Htail major minor H).
    + intros [= <-]. right; left. split; [reflexivity|]. split; [reflexivity|].
      apply (tagged_routes_nil _ default_version). apply Hnil.
      destruct vs; [reflexivity|discriminate].
  - destruct enable_legacy; cbn [bind ret]; [|discriminate].
    destruct default_version as [major minor].
    intros H. right; right. exact (Htail major minor H).
Qed.

End ExceptionsWhole.

Lemma VersionedFastAPI_raises_witness :
  (AssertionError = TypeError /\ In "title" (map fst (@nil (string * string)))) \/
  (AssertionError = UnboundLocalError /\ false = true /\
   filter filter_api_routes (routes scenario_C) = []) \/
  raised_by_runtime str_format fastapi default_version_format "v{major}"
    AssertionError.
Proof.
  apply (VersionedFastAPI_raises str_format fastapi scenario_C
           default_version_format "v{major}" default_default_version false false []).
  reflexivity.
Defined.

(** * Grouping and ordering the versions *)

Lemma tagged_routes_In (rs : list BaseRoute) (dv V : Version) (r : APIRoute) :
  In (V, r) (tagged_routes rs dv) <->
  In (Route_API r) rs /\ getattr_api_version (endpoint r) dv = V.
Proof.
  induction rs as [|[r0|m|n] rs IH]; simpl.
  - tauto.
  - rewrite IH. split.
    + intros [[= <- <-]|[H1 H2]]; auto.
    + intros [[[= ->]|H1] H2]; [left; now rewrite H2|right; auto].
  - rewrite IH. split; [intros [H1 H2]; auto|].
    intros [[H|H1] H2]; [discriminate|auto].
  - rewrite IH. split; [intros [H1 H2]; auto|].
    intros [[H|H1] H2]; [discriminate|auto].
Qed.

(** Lines 54-62: after the grouping loop, the entry of a version lists
    exactly the routes paired with this version, in the order of the input;
    every version of the input is a key, once. *)
Theorem group_routes_buckets (vrs : list (Version * APIRoute)) :
  (forall V, mapping_get (fst (group_routes vrs)) V
             = map snd (filter (fun vr => version_eqb (fst vr) V) vrs)) /\
  NoDup (dict_keys (fst (group_routes vrs))) /\
  (forall V, In V (dict_keys (fst (group_routes vrs))) <-> In V (map fst vrs)).
Proof.
  split; [intros V; apply group_routes_get|].
  split; [apply group_routes_NoDup|intros V; apply group_routes_keys].
Qed.

(** Lines 57-67: the versions the loop iterates over are strictly
    ascending, and they are exactly the effective versions of the API
    routes of the input (the tag of the endpoint, or [default_version]). *)
Theorem versions_present_exact (app : FastAPI) (default_version : Version) :
  StronglySorted (fun a b => version_ltb a b = true)
    (versions_present app default_version) /\
  forall V,
    In V (versions_present app default_version) <->
    exists r, In (Route_API r) (routes app) /\
              getattr_api_version (endpoint r) default_version = V.
Proof.
  split; [apply versions_present_ascending|].
  intros V. rewrite versions_present_In. split.
  - intros (r & Hr). exists r. now apply tagged_routes_In in Hr.
  - intros (r & Hr). exists r. now apply tagged_routes_In.
Qed.

(** * What a table holds *)

Lemma dict_set_In (d : UniqueRoutes) (k : string) (v : APIRoute)
  (k' : string) (v' : APIRoute) :
  In (k', v') (dict_set String.eqb d k v) -> In (k', v') d \/ (k', v') = (k, v).
Proof.
  induction d as [|[k0 v0] d IH]; simpl.
  - intros [H|[]]; auto.
  - destruct (String.eqb k k0) eqn:E.
    + apply String.eqb_eq in E; subst k0.
      intros [H|H]; [right; now symmetry|left; now right].
    + intros [H|H]; [left; now left|].
      destruct (IH H); [left; now right|now right].
Qed.

Lemma add_route_In (u : UniqueRoutes) (r : APIRoute) (k : string) (v : APIRoute) :
  In (k, v) (add_route u r) -> In (k, v) u \/ v = r.
Proof.
  unfold add_route. generalize (methods r) as ms. intros ms; revert u.
  induction ms as [|m ms IH]; intros u; simpl; [now left|].
  intros H. apply IH in H. destruct H as [H|H]; [|now right].
  apply dict_set_In in H. destruct H as [H|[= _ ->]]; [now left|now right].
Qed.

Lemma add_routes_In (u : UniqueRoutes) (b : list APIRoute) (k : string)
  (v : APIRoute) :
  In (k, v) (add_routes u b) -> In (k, v) u \/ In v b.
Proof.
  unfold add_routes. revert u; induction b as [|r b IH]; intros u; simpl;
    [now left|].
  intros H. apply IH in H. destruct H as [H|H]; [|right; now right].
  apply add_route_In in H. destruct H as [H| ->]; [now left|right; now left].
Qed.

Lemma tables_from_In_origin (m : VersionRouteMapping) (k : string) (r : APIRoute) :
  forall (vs : list Version) (u : UniqueRoutes) (V : Version) (T : UniqueRoutes),
  ascending vs ->
  In (V, T) (tables_from m vs u) ->
  In (k, r) T ->
  In (k, r) u \/
  exists W, In W vs /\ version_leb W V = true /\ In r (mapping_get m W).
Proof.
  induction vs as [|v vs IH]; intros u V T Hs HT Hin; simpl in HT; [destruct HT|].
  destruct HT as [[= <- <-]|HT].
  - apply add_routes_In in Hin. destruct Hin as [Hin|Hin]; [now left|].
    right. exists v. split; [now left|]. split; [apply version_leb_refl|exact Hin].
  - assert (HV : In V vs) by (eapply tables_from_In_version; eassumption).
    assert (Hlt : version_ltb v V = true) by (eapply ascending_head_lt; eassumption).
    destruct (IH _ V T ltac:(now inversion Hs) HT Hin) as [Hu|(W & HW & Hle & Hr)].
    + apply add_routes_In in Hu. destruct Hu as [Hu|Hu]; [now left|].
      right. exists v. split; [now left|]. split; [|exact Hu].
      now apply version_ltb_leb in Hlt.
    + right. exists W. split; [now right|]. now split.
Qed.

(** Lines 68-82: the sub-application of a version lists no route of a
    higher version: every route in its list is an API route of the input
    whose effective version is at most the version of the sub-application. *)
Theorem sub_application_routes_not_newer
  (format : string -> Z -> Z -> M string) (fw : Framework) (app : FastAPI)
  (version_format prefix_format : string) (default_version : Version)
  (enable_latest enable_legacy : bool) (kwargs : Kwargs) (parent : ParentApp)
  (i : nat) (V : Version) (pa : string * VersionedApp) (r : APIRoute) :
  VersionedFastAPI format fw app version_format prefix_format default_version
    enable_latest enable_legacy kwargs = inr parent ->
  nth_error (versions_present app default_version) i = Some V ->
  nth_error (sub_applications (p_routes parent)) i = Some pa ->
  In r (v_routes (snd pa)) ->
  In (Route_API r) (routes app) /\
  version_leb (getattr_api_version (endpoint r) default_version) V = true.
Proof.
  intros Hret HV Hpa Hr.
  destruct (sub_application_of_version _ _ _ _ _ _ _ _ _ _ _ _ _ Hret HV Hpa)
    as (T & HT & _ & _ & Hroutes).
  rewrite Hroutes in Hr. apply dict_values_In in Hr. destruct Hr as [k Hk].
  unfold cumulative_tables in HT.
  destruct (tables_from_In_origin _ k r _ _ V T
              (versions_present_ascending app default_version) HT Hk)
    as [[]|(W & _ & Hle & HW)].
  rewrite tagged_routes_mapping in HW. apply bucket_In, tagged_routes_In in HW.
  destruct HW as [Hin <-]. now split.
Qed.

Lemma sub_application_routes_not_newer_witness :
  In (Route_API scenario_C_a) (routes scenario_C) /\
  version_leb (getattr_api_version (endpoint scenario_C_a) (1, 0)) (1, 0) = true.
Proof.
  apply (sub_application_routes_not_newer str_format fastapi scenario_C
           default_version_format default_prefix_format (1, 0) false false []
           scenario_C_parent 0 (1, 0)
           ("/v1_0", {| v_title := "app"; v_description := ""; v_version := "1.0";
                        v_args := []; v_routes := [scenario_C_a] |})
           scenario_C_a).
  - reflexivity.
  - reflexivity.
  - reflexivity.
  - left; reflexivity.
Defined.

Lemma add_route_keys (u : UniqueRoutes) (r : APIRoute) (k : string) :
  In k (dict_keys (add_route u r)) <-> In k (dict_keys u) \/ In k (route_keys r).
Proof.
  unfold add_route, route_keys. generalize (methods r) as ms. intros ms; revert u.
  induction ms as [|m ms IH]; intros u; simpl; [tauto|].
  rewrite IH, (dict_keys_set String.eqb String.eqb_eq). intuition congruence.
Qed.

Lemma add_routes_keys (u : UniqueRoutes) (b : list APIRoute) (k : string) :
  In k (dict_keys (add_routes u b)) <->
  In k (dict_keys u) \/ exists r, In r b /\ In k (route_keys r).
Proof.
  unfold add_routes. revert u; induction b as [|r b IH]; intros u; simpl.
  - split; [now left|]. intros [H|(r & [] & _)]; exact H.
  - rewrite IH, add_route_keys. split.
    + intros [[H|H]|(r' & Hr' & Hk)]; [now left| |].
      * right. exists r. split; [now left|exact H].
      * right. exists r'. split; [now right|exact Hk].
    + intros [H|(r' & [<-|Hr'] & Hk)]; [left; now left|left; now right|].
      right. now exists r'.
Qed.

Lemma tables_from_keys (m : VersionRouteMapping) (k : string) :
  forall (vs : list Version) (u : UniqueRoutes) (V : Version) (T : UniqueRoutes),
  ascending vs ->
  In (V, T) (tables_from m vs u) ->
  (In k (dict_keys T) <->
   In k (dict_keys u) \/
   exists W r, In W vs /\ version_leb W V = true /\
               In r (mapping_get m W) /\ In k (route_keys r)).
Proof.
  induction vs as [|v vs IH]; intros u V T Hs HT; simpl in HT; [destruct HT|].
  destruct HT as [[= <- <-]|HT].
  - rewrite add_routes_keys. split.
    + intros [H|(r & Hr & Hk)]; [now left|].
      right. exists v, r. split; [now left|].
      split; [apply version_leb_refl|now split].
    + intros [H|(W & r & [<-|HW] & Hle & Hr & Hk)]; [now left| |].
      * right. now exists r.
      * exfalso. eapply ltb_not_leb; [|exact Hle].
        eapply ascending_head_lt; eassumption.
  - assert (HV : In V vs) by (eapply tables_from_In_version; eassumption).
    assert (Hlt : version_ltb v V = true) by (eapply ascending_head_lt; eassumption).
    rewrite (IH _ V T ltac:(now inversion Hs) HT), add_routes_keys. split.
    + intros [[H|(r & Hr & Hk)]|(W & r & HW & Hle & Hr & Hk)]; [now left| |].
      * right. exists v, r. split; [now left|].
        split; [now apply version_ltb_leb in Hlt|now split].
      * right. exists W, r. split; [now right|]. now split.
    + intros [H|(W & r & [<-|HW] & Hle & Hr & Hk)]; [left; now left| |].
      * left; right. now exists r.
      * right. now exists W, r.
Qed.

(** Lines 78-80: the keys of the table of a version [V] are exactly the
    keys [path|method] written by the API routes of the input whose
    effective version is at most [V]; a key never disappears in a later
    version. *)
Theorem cumulative_table_keys
  (app : FastAPI) (default_version : Version) (V : Version) (T : UniqueRoutes)
  (k : string) :
  In (V, T) (cumulative_tables app default_version) ->
  (In k (dict_keys T) <->
   exists r, In (Route_API r) (routes app) /\
             version_leb (getattr_api_version (endpoint r) default_version) V
               = true /\
             In k (route_keys r)).
Proof.
  intros HT. unfold cumulative_tables in HT.
  rewrite (tables_from_keys _ k _ _ V T
             (versions_present_ascending app default_version) HT).
  split.
  - intros [[]|(W & r & _ & Hle & Hr & Hk)].
    rewrite tagged_routes_mapping in Hr. apply bucket_In, tagged_routes_In in Hr.
    destruct Hr as [Hin <-]. now exists r.
  - intros (r & Hin & Hle & Hk). right.
    exists (getattr_api_version (endpoint r) default_version), r.
    split.
    { apply versions_present_In. exists r. apply tagged_routes_In. now split. }
    split; [exact Hle|]. split; [|exact Hk].
    rewrite tagged_routes_mapping. apply bucket_In, tagged_routes_In. now split.
Qed.

Lemma cumulative_table_keys_witness :
  In "/a|GET" (dict_keys [("/a|GET", scenario_C_a); ("/b|GET", scenario_C_b)]) <->
  exists r, In (Route_API r) (routes scenario_C) /\
            version_leb (getattr_api_version (endpoint r) (1, 0)) (2, 0) = true /\
            In "/a|GET" (route_keys r).
Proof.
  apply (cumulative_table_keys scenario_C (1, 0) (2, 0)
           [("/a|GET", scenario_C_a); ("/b|GET", scenario_C_b)] "/a|GET").
  right; left; reflexivity.
Defined.

Lemma dict_set_keys_prefix (d : UniqueRoutes) (k : string) (v : APIRoute) :
  exists suffix, dict_keys (dict_set String.eqb d k v) = (dict_keys d ++ suffix)%list.
Proof.
  unfold dict_keys. induction d as [|[k0 v0] d IH]; simpl.
  - now exists [k].
  - destruct (String.eqb k k0); simpl.
    + exists []. now rewrite app_nil_r.
    + destruct IH as [s Hs]. exists s. now rewrite Hs.
Qed.

Lemma add_route_keys_prefix (u : UniqueRoutes) (r : APIRoute) :
  exists suffix, dict_keys (add_route u r) = (dict_keys u ++ suffix)%list.
Proof.
  unfold add_route. generalize (methods r) as ms. intros ms; revert u.
  induction ms as [|m ms IH]; intros u; simpl.
  - exists []. now rewrite app_nil_r.
  - destruct (IH (dict_set String.eqb u (route_key (path r) m) r)) as [s2 H2].
    destruct (dict_set_keys_prefix u (route_key (path r) m) r) as [s1 H1].
    exists (s1 ++ s2)%list. now rewrite H2, H1, app_assoc.
Qed.

Lemma add_routes_keys_prefix (u : UniqueRoutes) (b : list APIRoute) :
  exists suffix, dict_keys (add_routes u b) = (dict_keys u ++ suffix)%list.
Proof.
  unfold add_routes. revert u; induction b as [|r b IH]; intros u; simpl.
  - exists []. now rewrite app_nil_r.
  - destruct (IH (add_route u r)) as [s2 H2].
    destruct (add_route_keys_prefix u r) as [s1 H1].
    exists (s1 ++ s2)%list. now rewrite H2, H1, app_assoc.
Qed.

Lemma tables_from_keys_prefix (m : VersionRouteMapping) :
  forall (vs : list Version) (u : UniqueRoutes) (V : Version) (T : UniqueRoutes),
  In (V, T) (tables_from m vs u) ->
  exists suffix, dict_keys T = (dict_keys u ++ suffix)%list.
Proof.
  induction vs as [|v vs IH]; intros u V T HT; simpl in HT; [destruct HT|].
  destruct HT as [[= <- <-]|HT]; [apply add_routes_keys_prefix|].
  destruct (IH _ V T HT) as [s2 H2].
  destruct (add_routes_keys_prefix u (mapping_get m v)) as [s1 H1].
  exists (s1 ++ s2)%list. now rewrite H2, H1, app_assoc.
Qed.

(** Lines 78-82: a key keeps its position.  For two versions [V1 < V2] of
    the input, the keys of the table of [V1] are, in the same order, the
    first keys of the table of [V2]; the keys that [V2] adds come after. *)
Theorem cumulative_table_keys_prefix
  (app : FastAPI) (default_version : Version)
  (V1 V2 : Version) (T1 T2 : UniqueRoutes) :
  In (V1, T1) (cumulative_tables app default_version) ->
  In (V2, T2) (cumulative_tables app default_version) ->
  version_ltb V1 V2 = true ->
  exists suffix, dict_keys T2 = (dict_keys T1 ++ suffix)%list.
Proof.
  unfold cumulative_tables.
  generalize (versions_present_ascending app default_version).
  unfold versions_present.
  generalize (fst (group_routes (tagged_routes (routes app) default_version))) as m.
  intros m. generalize (sorted (dict_keys m)) as vs. generalize (@nil (string * APIRoute)) as u.
  intros u vs; revert u.
  induction vs as [|v vs IH]; intros u Hs H1 H2 Hlt; simpl in H1, H2; [destruct H1|].
  assert (Hs' : ascending vs) by now inversion Hs.
  destruct H1 as [[= <- <-]|H1], H2 as [[= <- <-]|H2].
  - now rewrite version_ltb_irrefl in Hlt.
  - eapply tables_from_keys_prefix; exact H2.
  - exfalso. apply (ltb_not_leb v V1).
    + eapply ascending_head_lt; [exact Hs|].
      eapply tables_from_In_version; eassumption.
    + now apply version_ltb_leb in Hlt.
  - eapply IH; eassumption.
Qed.

Lemma cumulative_table_keys_prefix_witness :
  exists suffix,
    dict_keys [("/a|GET", scenario_C_a); ("/b|GET", scenario_C_b)]
    = (dict_keys [("/a|GET", scenario_C_a)] ++ suffix)%list.
Proof.
  apply (cumulative_table_keys_prefix scenario_C (1, 0) (1, 0) (2, 0)).
  - left; reflexivity.
  - right; left; reflexivity.
  - reflexivity.
Defined.

(** * The other routes of the parent *)

Lemma get_routes_app (rs1 rs2 : list ParentRoute) :
  get_routes (rs1 ++ rs2) = (get_routes rs1 ++ get_routes rs2)%list.
Proof.
  induction rs1 as [|[p a n|p n t] rs1 IH]; simpl; auto.
  now rewrite IH.
Qed.

Lemma get_routes_static (rs : list BaseRoute) : get_routes (static_entries rs) = [].
Proof. induction rs as [|[r|m|n] rs IH]; simpl; auto. Qed.

Lemma static_remounts_app (rs1 rs2 : list ParentRoute) :
  static_remounts (rs1 ++ rs2) = (static_remounts rs1 ++ static_remounts rs2)%list.
Proof.
  induction rs1 as [|[p [a|s] n|p n t] rs1 IH]; simpl; auto.
  now rewrite IH.
Qed.

Lemma static_remounts_static (rs : list BaseRoute) :
  static_remounts (static_entries rs) = static_mounts_of rs.
Proof.
  induction rs as [|[r|[p a n]|n] rs IH]; simpl; auto.
  now rewrite IH.
Qed.

Section OtherRoutes.
Variable format : string -> Z -> Z -> M string.
Variable app : FastAPI.
Variables version_format prefix_format : string.
Variable kwargs : Kwargs.

Lemma mounts_versions_get_routes (tables : list (Version * UniqueRoutes))
  (R : list ParentRoute) :
  mounts_versions format app version_format prefix_format kwargs tables R ->
  get_routes R = flat_map docs_routes (sub_applications R).
Proof.
  induction 1 as [|major minor T tables prefix semver rest Hp Hs HR IH]; simpl;
    [reflexivity|].
  unfold docs_routes at 1. simpl. now rewrite IH.
Qed.

Lemma mounts_versions_static_remounts (tables : list (Version * UniqueRoutes))
  (R : list ParentRoute) :
  mounts_versions format app version_format prefix_format kwargs tables R ->
  static_remounts R = [].
Proof. induction 1; simpl; auto. Qed.

Lemma mounts_versions_metadata (tables : list (Version * UniqueRoutes))
  (R : list ParentRoute) :
  mounts_versions format app version_format prefix_format kwargs tables R ->
  forall pa, In pa (sub_applications R) ->
    v_title (snd pa) = title app /\
    v_description (snd pa) = description app /\
    v_args (snd pa) = args kwargs.
Proof.
  induction 1 as [|major minor T tables prefix semver rest Hp Hs HR IH];
    intros pa; simpl; [intros []|].
  intros [<-|Hin]; [repeat split|now apply IH].
Qed.

End OtherRoutes.

Section OtherRoutesWhole.
Variable format : string -> Z -> Z -> M string.
Variable fw : Framework.
Variable app : FastAPI.
Variables version_format prefix_format : string.
Variable default_version : Version.
Variables enable_latest enable_legacy : bool.
Variable kwargs : Kwargs.

(** Lines 85-90: the routes registered with [parent_app.get] are, for each
    version present in ascending order, [{prefix}/docs] and then
    [{prefix}/openapi.json], both named with the version string of the
    sub-application; the alias gets no such route. *)
Theorem docs_routes_per_version (parent : ParentApp) :
  VersionedFastAPI format fw app version_format prefix_format default_version
    enable_latest enable_legacy kwargs = inr parent ->
  get_routes (p_routes parent)
  = flat_map docs_routes
      (firstn (List.length (versions_present app default_version))
              (sub_applications (p_routes parent))).
Proof.
  intros Hret. apply VersionedFastAPI_inr in Hret.
  destruct Hret as (_ & _ & R & HR & Hcases).
  pose proof (mounts_versions_sub_applications _ _ _ _ _ _ _ HR) as HF.
  apply Forall2_length_eq in HF.
  rewrite <- cumulative_tables_versions, length_map, HF.
  pose proof (mounts_versions_get_routes _ _ _ _ _ _ _ HR) as HG.
  destruct Hcases as [[_ ->]|[_ (V & semver & _ & _ & ->)]].
  - now rewrite firstn_all.
  - rewrite !get_routes_app, get_routes_static, !sub_applications_app.
    rewrite firstn_app, firstn_all, Nat.sub_diag. simpl.
    now rewrite !app_nil_r.
Qed.

(** Lines 64 and 103-106: when an alias is requested, the mounts of the
    input are mounted on the parent with their path, application and name,
    in the order of the input; without alias none of them is. *)
Theorem static_mounts_follow_alias (parent : ParentApp) :
  VersionedFastAPI format fw app version_format prefix_format default_version
    enable_latest enable_legacy kwargs = inr parent ->
  static_remounts (p_routes parent)
  = if enable_latest || enable_legacy then static_mounts_of (routes app) else [].
Proof.
  intros Hret. apply VersionedFastAPI_inr in Hret.
  destruct Hret as (_ & _ & R & HR & Hcases).
  pose proof (mounts_versions_static_remounts _ _ _ _ _ _ _ HR) as HS.
  destruct Hcases as [[-> ->]|[-> (V & semver & _ & _ & ->)]]; [exact HS|].
  rewrite !static_remounts_app, HS, static_remounts_static. simpl.
  now rewrite app_nil_r.
Qed.

(** Lines 46-52, 72-77 and 96-101: the parent takes the title of the input
    and all keyword arguments; every sub-application, the alias included,
    takes the title and the description of the input and the keyword
    arguments other than [title], [description] and [version]. *)
Theorem sub_application_metadata (parent : ParentApp) :
  VersionedFastAPI format fw app version_format prefix_format default_version
    enable_latest enable_legacy kwargs = inr parent ->
  p_title parent = title app /\
  p_kwargs parent = kwargs /\
  forall pa, In pa (sub_applications (p_routes parent)) ->
    v_title (snd pa) = title app /\
    v_description (snd pa) = description app /\
    forall name value,
      In (name, value) (v_args (snd pa)) <->
      In (name, value) kwargs /\
      name <> "title" /\ name <> "description" /\ name <> "version".
Proof.
  intros Hret. apply VersionedFastAPI_inr in Hret.
  destruct Hret as (Ht & Hk & R & HR & Hcases).
  split; [exact Ht|]. split; [exact Hk|].
  assert (Hargs : forall name value,
            In (name, value) (args kwargs) <->
            In (name, value) kwargs /\
            name <> "title" /\ name <> "description" /\ name <> "version").
  { intros name value. unfold args. rewrite filter_In. cbn [fst existsb].
    rewrite negb_true_iff, !orb_false_iff.
    destruct (String.eqb_spec name "title"), (String.eqb_spec name "description"),
      (String.eqb_spec name "version"); intuition congruence. }
  assert (Hall : forall pa, In pa (sub_applications (p_routes parent)) ->
            v_title (snd pa) = title app /\
            v_description (snd pa) = description app /\
            v_args (snd pa) = args kwargs).
  { intros pa Hpa.
    pose proof (mounts_versions_metadata _ _ _ _ _ _ _ HR) as HM.
    destruct Hcases as [[_ Hr]|[_ (V & semver & _ & _ & Hr)]]; rewrite Hr in Hpa.
    - now apply HM.
    - rewrite !sub_applications_app, sub_applications_static in Hpa.
      apply in_app_or in Hpa. destruct Hpa as [Hpa|[<-|[]]]; [now apply HM|].
      repeat split. }
  intros pa Hpa. destruct (Hall pa Hpa) as (H1 & H2 & H3).
  split; [exact H1|]. split; [exact H2|]. rewrite H3. exact Hargs.
Qed.

End OtherRoutesWhole.

Lemma docs_routes_per_version_witness :
  get_routes (p_routes scenario_C_latest)
  = flat_map docs_routes
      (firstn (List.length (versions_present scenario_C (1, 0)))
              (sub_applications (p_routes scenario_C_latest))).
Proof.
  apply (docs_routes_per_version str_format fastapi scenario_C default_version_format
           default_prefix_format (1, 0) true true []).
  reflexivity.
Defined.

Lemma static_mounts_follow_alias_witness :
  static_remounts
    [Parent_Mount "/static" (App_Static "StaticFiles") (Some "static");
     alias_entry scenario_D [] "" "1.0" []]
  = if false || true then static_mounts_of (routes scenario_D) else [].
Proof.
  apply (static_mounts_follow_alias str_format fastapi scenario_D default_version_format
           default_prefix_format (1, 0) false true []
           {| p_title := "app"; p_kwargs := [];
              p_routes :=
                [Parent_Mount "/static" (App_Static "StaticFiles") (Some "static");
                 alias_entry scenario_D [] "" "1.0" []] |}).
  reflexivity.
Defined.

Lemma sub_application_metadata_witness :
  exists parent,
    VersionedFastAPI str_format fastapi scenario_C default_version_format
      default_prefix_format (1, 0) true false
      [("description", "API"); ("version", "3")] = inr parent /\
    p_title parent = title scenario_C /\
    p_kwargs parent = [("description", "API"); ("version", "3")] /\
    forall pa, In pa (sub_applications (p_routes parent)) ->
      v_title (snd pa) = title scenario_C /\
      v_description (snd pa) = description scenario_C /\
      forall name value,
        In (name, value) (v_args (snd pa)) <->
        In (name, value) [("description", "API"); ("version", "3")] /\
        name <> "title" /\ name <> "description" /\ name <> "version".
Proof.
  eexists. split; [reflexivity|].
  apply (sub_application_metadata str_format fastapi scenario_C default_version_format
           default_prefix_format (1, 0) true false
           [("description", "API"); ("version", "3")]).
  reflexivity.
Defined.

(** * What the result does not depend on *)

(** Lines 64 and 92: without alias the mounts of the input are dropped.  A
    route that is not an API route, a mount included, can be removed from
    the input without changing the result when neither alias is requested. *)
Theorem mount_ignored_without_alias
  (format : string -> Z -> Z -> M string) (fw : Framework) (t d : string)
  (before after : list BaseRoute) (route : BaseRoute)
  (version_format prefix_format : string) (default_version : Version)
  (kwargs : Kwargs) :
  filter_api_routes route = false ->
  VersionedFastAPI format fw
    {| title := t; description := d; routes := (before ++ route :: after)%list |}
    version_format prefix_format default_version false false kwargs
  = VersionedFastAPI format fw
      {| title := t; description := d; routes := (before ++ after)%list |}
      version_format prefix_format default_version false false kwargs.
Proof.
  intros Hapi.
  unfold VersionedFastAPI, version_routes, new_parent_app, alias.
  cbn [routes title description orb].
  rewrite !filter_app. cbn [filter]. rewrite Hapi, <- !filter_app. reflexivity.
Qed.

Lemma mount_ignored_without_alias_witness :
  VersionedFastAPI str_format fastapi
    {| title := "app"; description := "";
       routes := [Route_API scenario_C_a; Route_Mount static_files;
                  Route_API scenario_C_b] |}
    default_version_format default_prefix_format (1, 0) false false []
  = VersionedFastAPI str_format fastapi
      {| title := "app"; description := "";
         routes := [Route_API scenario_C_a; Route_API scenario_C_b] |}
      default_version_format default_prefix_format (1, 0) false false [].
Proof.
  apply (mount_ignored_without_alias str_format fastapi "app" ""
           [Route_API scenario_C_a] [Route_API scenario_C_b]
           (Route_Mount static_files)).
  reflexivity.
Defined.

Lemma tagged_routes_all_tagged (rs : list BaseRoute) (dv1 dv2 : Version) :
  (forall r, In (Route_API r) rs -> _api_version (endpoint r) <> None) ->
  tagged_routes rs dv1 = tagged_routes rs dv2.
Proof.
  induction rs as [|[r|m|n] rs IH]; intros Hall; simpl; auto.
  - rewrite IH by (intros r' Hr'; apply Hall; now right).
    f_equal. f_equal. unfold getattr_api_version.
    destruct (_api_version (endpoint r)) eqn:E; [reflexivity|].
    exfalso. apply (Hall r); [now left|exact E].
  - apply IH. intros r Hr. apply Hall. now right.
  - apply IH. intros r Hr. apply Hall. now right.
Qed.

(** Lines 33 and 94: [default_version] matters only for untagged handlers
    and for the legacy alias.  When the endpoint of every API route carries
    a version tag, and the alias is the latest one or there is none, two
    values of [default_version] give the same result. *)
Theorem default_version_irrelevant
  (format : string -> Z -> Z -> M string) (fw : Framework) (app : FastAPI)
  (version_format prefix_format : string) (dv1 dv2 : Version)
  (enable_latest enable_legacy : bool) (kwargs : Kwargs) :
  (forall r, In (Route_API r) (routes app) -> _api_version (endpoint r) <> None) ->
  enable_latest = true \/ enable_legacy = false ->
  VersionedFastAPI format fw app version_format prefix_format dv1
    enable_latest enable_legacy kwargs
  = VersionedFastAPI format fw app version_format prefix_format dv2
      enable_latest enable_legacy kwargs.
Proof.
  intros Hall Hflags.
  unfold VersionedFastAPI. rewrite !version_routes_ok.
  rewrite (tagged_routes_all_tagged _ dv1 dv2 Hall).
  unfold alias.
  destruct Hflags as [-> | ->]; [reflexivity|].
  destruct enable_latest; reflexivity.
Qed.

Lemma default_version_irrelevant_witness :
  VersionedFastAPI str_format fastapi scenario_C default_version_format
    default_prefix_format (1, 0) true true []
  = VersionedFastAPI str_format fastapi scenario_C default_version_format
      default_prefix_format (7, 3) true true [].
Proof.
  apply default_version_irrelevant.
  - intros r [[= <-]|[[= <-]|[]]]; discriminate.
  - now left.
Defined.

(** * More on the alias *)

(** Lines 92-110: when only the legacy alias is requested and
    [default_version] is the highest version present, the alias at the root
    is labelled with [default_version] and lists the values of the table of
    [default_version]. *)
Theorem legacy_alias_default_highest
  (format : string -> Z -> Z -> M string) (fw : Framework) (app : FastAPI)
  (version_format prefix_format : string) (default_version : Version)
  (kwargs : Kwargs) (parent : ParentApp) :
  VersionedFastAPI format fw app version_format prefix_format default_version
    false true kwargs = inr parent ->
  In default_version (versions_present app default_version) ->
  (forall V, In V (versions_present app default_version) ->
             version_leb V default_version = true) ->
  exists T version_apps a,
    In (default_version, T) (cumulative_tables app default_version) /\
    sub_applications (p_routes parent) = (version_apps ++ [("", a)])%list /\
    List.length version_apps = List.length (versions_present app default_version) /\
    format version_format (fst default_version) (snd default_version)
      = inr (v_version a) /\
    v_routes a = dict_values T.
Proof.
  intros Hret Hin Hmax.
  assert (Hne : versions_present app default_version <> []).
  { intros Hnil. rewrite Hnil in Hin. destruct Hin. }
  assert (Hlast : last (versions_present app default_version) (0, 0)
                  = default_version).
  { apply version_leb_antisym.
    - apply Hmax. now apply last_In.
    - apply ascending_last_max; [apply versions_present_ascending|exact Hin]. }
  apply VersionedFastAPI_inr in Hret.
  destruct Hret as (_ & _ & R & HR & [[Hflags _]|[_ (V & semver & -> & Hsem & Hr)]]);
    [discriminate|].
  exists (alias_table app default_version), (sub_applications R).
  eexists.
  split; [rewrite <- Hlast at 1; now apply alias_table_highest|].
  split.
  { rewrite Hr, !sub_applications_app, sub_applications_static. reflexivity. }
  split.
  { rewrite <- cumulative_tables_versions, length_map. symmetry.
    eapply Forall2_length_eq, mounts_versions_sub_applications. exact HR. }
  split; [exact Hsem|reflexivity].
Qed.

Lemma legacy_alias_default_highest_witness :
  exists T version_apps a,
    In ((2, 0), T) (cumulative_tables scenario_C (2, 0)) /\
    sub_applications
      (version_entries scenario_C [] "/v1_0" "1.0" [("/a|GET", scenario_C_a)]
       ++ version_entries scenario_C [] "/v2_0" "2.0"
            [("/a|GET", scenario_C_a); ("/b|GET", scenario_C_b)]
       ++ [alias_entry scenario_C [] "" "2.0"
             [("/a|GET", scenario_C_a); ("/b|GET", scenario_C_b)]])%list
    = (version_apps ++ [("", a)])%list /\
    List.length version_apps = List.length (versions_present scenario_C (2, 0)) /\
    str_format default_version_format 2 0 = inr (v_version a) /\
    v_routes a = dict_values T.
Proof.
  apply (legacy_alias_default_highest str_format fastapi scenario_C
           default_version_format default_prefix_format (2, 0) []
           {| p_title := "app"; p_kwargs := [];
              p_routes :=
                (version_entries scenario_C [] "/v1_0" "1.0"
                   [("/a|GET", scenario_C_a)]
                 ++ version_entries scenario_C [] "/v2_0" "2.0"
                      [("/a|GET", scenario_C_a); ("/b|GET", scenario_C_b)]
                 ++ [alias_entry scenario_C [] "" "2.0"
                       [("/a|GET", scenario_C_a); ("/b|GET", scenario_C_b)]])%list |}).
  - reflexivity.
  - right; left; reflexivity.
  - intros V [<-|[<-|[]]]; reflexivity.
Defined.

(** Lines 46-110 on an input without API route, when the keyword arguments
    hold no [title] and the framework accepts the parent: without alias the
    parent has no route at all, the mounts of the input included; with the
    legacy alias alone, when the framework accepts the alias and the
    mounts, the parent has the mounts of the input followed by the alias at
    the root, which lists no route and is labelled with [default_version];
    with the latest alias the function raises [UnboundLocalError]. *)
Theorem no_versionable_route
  (format : string -> Z -> Z -> M string) (fw : Framework) (app : FastAPI)
  (version_format prefix_format : string) (default_version : Version)
  (kwargs : Kwargs) :
  filter filter_api_routes (routes app) = [] ->
  ~ In "title" (map fst kwargs) ->
  FastAPI_init fw (("title", title app) :: kwargs) = inr tt ->
  VersionedFastAPI format fw app version_format prefix_format default_version
    false false kwargs
  = inr {| p_title := title app; p_kwargs := kwargs; p_routes := [] |} /\
  (forall semver,
     format version_format (fst default_version) (snd default_version)
       = inr semver ->
     FastAPI_init fw (versioned_kwargs app kwargs semver) = inr tt ->
     Forall (fun m => Mount_init fw (mount_path m) (App_Static (mount_app m))
                        (mount_name m) = inr tt)
            (static_mounts_of (routes app)) ->
     Mount_init fw ""
       (App_Versioned {| v_title := title app;
                         v_description := description app;
                         v_version := semver;
                         v_args := args kwargs;
                         v_routes := [] |}) None = inr tt ->
     VersionedFastAPI format fw app version_format prefix_format default_version
       false true kwargs
     = inr {| p_title := title app;
              p_kwargs := kwargs;
              p_routes :=
                (static_entries (routes app)
                   ++ [alias_entry app kwargs "" semver []])%list |}) /\
  (forall enable_legacy,
     VersionedFastAPI format fw app version_format prefix_format default_version
       true enable_legacy kwargs = inl UnboundLocalError).
Proof.
  intros Hroutes Htitle Hinit.
  assert (Hno : existsb (String.eqb "title") (map fst kwargs) = false).
  { destruct (existsb (String.eqb "title") (map fst kwargs)) eqn:E;
      [|reflexivity].
    apply existsb_title_In in E. contradiction. }
  split; [now apply no_routes_no_alias|].
  split.
  - intros semver Hsem Hsub Hstatic Hroot. now apply legacy_alias_without_routes.
  - intros enable_legacy. now apply latest_alias_unbound_version.
Qed.

Lemma no_versionable_route_witness :
  VersionedFastAPI str_format fastapi scenario_D default_version_format
    default_prefix_format (1, 0) false false []
  = inr {| p_title := title scenario_D; p_kwargs := []; p_routes := [] |} /\
  (forall semver,
     str_format default_version_format 1 0 = inr semver ->
     fastapi_init (versioned_kwargs scenario_D [] semver) = inr tt ->
     Forall (fun m => starlette_mount_init (mount_path m) (App_Static (mount_app m))
                        (mount_name m) = inr tt)
            (static_mounts_of (routes scenario_D)) ->
     starlette_mount_init ""
       (App_Versioned {| v_title := title scenario_D;
                         v_description := description scenario_D;
                         v_version := semver;
                         v_args := args [];
                         v_routes := [] |}) None = inr tt ->
     VersionedFastAPI str_format fastapi scenario_D default_version_format
       default_prefix_format (1, 0) false true []
     = inr {| p_title := title scenario_D;
              p_kwargs := [];
              p_routes :=
                (static_entries (routes scenario_D)
                   ++ [alias_entry scenario_D [] "" semver []])%list |}) /\
  (forall enable_legacy,
     VersionedFastAPI str_format fastapi scenario_D default_version_format
       default_prefix_format (1, 0) true enable_legacy []
     = inl UnboundLocalError).
Proof.
  apply (no_versionable_route str_format fastapi scenario_D default_version_format
           default_prefix_format (1, 0) []).
  - reflexivity.
  - intros [].
  - reflexivity.
Defined.

(** * Keys and sub-applications of a route *)

(** Line 80: for method names without [|], two (path, method) pairs with
    the same key [path|method] are the same pair, and a route writes the
    key of a pair exactly when it has this path and this method. *)
Theorem route_key_pairs (p1 m1 p2 m2 : string) (r : APIRoute) :
  bar_free m1 = true -> bar_free m2 = true ->
  Forall (fun m => bar_free m = true) (methods r) ->
  (route_key p1 m1 = route_key p2 m2 <-> p1 = p2 /\ m1 = m2) /\
  (In (route_key p1 m1) (route_keys r) <-> path r = p1 /\ In m1 (methods r)).
Proof.
  intros H1 H2 Hr. split.
  - split; [now apply route_key_inj|]. intros [-> ->]. reflexivity.
  - unfold route_keys. rewrite in_map_iff. split.
    + intros (m' & Heq & Hin). rewrite Forall_forall in Hr.
      destruct (route_key_inj _ _ _ _ (Hr m' Hin) H1 Heq) as [-> ->]. now split.
    + intros [<- Hin]. now exists m1.
Qed.

Lemma route_key_pairs_witness :
  (route_key "/x" "GET" = route_key "/x" "POST" <-> "/x" = "/x" /\ "GET" = "POST") /\
  (In (route_key "/x" "GET") (route_keys two_methods) <->
   path two_methods = "/x" /\ In "GET" (methods two_methods)).
Proof.
  apply route_key_pairs; try reflexivity.
  repeat constructor.
Defined.

(** Lines 15-20, 28-34 and 54-83: every API route of the input gets a
    sub-application for its version.  For a route whose handler was
    decorated with [version(major, minor)], the returned parent mounts a
    sub-application at the prefix that [(major, minor)] formats to,
    labelled with the version string it formats to, whatever
    [default_version] is; for a route with an undecorated handler the same
    holds with [default_version]. *)
Theorem route_version_is_mounted
  (format : string -> Z -> Z -> M string) (fw : Framework) (app : FastAPI)
  (version_format prefix_format : string) (default_version : Version)
  (enable_latest enable_legacy : bool) (kwargs : Kwargs) (parent : ParentApp)
  (r : APIRoute) (major minor : Z) :
  VersionedFastAPI format fw app version_format prefix_format default_version
    enable_latest enable_legacy kwargs = inr parent ->
  In (Route_API r) (routes app) ->
  (exists func, endpoint r = version major minor func) \/
  (_api_version (endpoint r) = None /\ default_version = (major, minor)) ->
  exists prefix a T,
    format prefix_format major minor = inr prefix /\
    format version_format major minor = inr (v_version a) /\
    In (prefix, a) (sub_applications (p_routes parent)) /\
    In ((major, minor), T) (cumulative_tables app default_version) /\
    v_routes a = dict_values T.
Proof.
  intros Hret Hin Htag.
  assert (HV : getattr_api_version (endpoint r) default_version = (major, minor)).
  { unfold getattr_api_version.
    destruct Htag as [(func & ->)|[-> ->]]; reflexivity. }
  assert (Hpresent : In (major, minor) (versions_present app default_version)).
  { apply versions_present_In. exists r. apply tagged_routes_In. now split. }
  apply In_nth_error in Hpresent. destruct Hpresent as [i Hi].
  apply VersionedFastAPI_sub_applications in Hret.
  destruct Hret as (version_apps & alias_apps & Hsub & HF & _).
  destruct (nth_error_versions_tables _ _ _ _ Hi) as [T HT].
  destruct (nth_error version_apps i) as [[prefix a]|] eqn:Ha.
  - destruct (Forall2_nth_error _ _ _ HF i _ _ HT Ha) as (Hp & Hs & Hroutes).
    exists prefix, a, T. cbn [fst snd] in *.
    split; [exact Hp|]. split; [exact Hs|]. split.
    { rewrite Hsub. apply in_or_app; left. eapply nth_error_In; exact Ha. }
    split; [eapply nth_error_In; exact HT|exact Hroutes].
  - exfalso. apply nth_error_None in Ha.
    rewrite <- (Forall2_length_eq _ _ _ HF) in Ha.
    assert (Hlt : (i < List.length (cumulative_tables app default_version))%nat).
    { apply nth_error_Some. congruence. }
    lia.
Qed.

Lemma route_version_is_mounted_witness :
  exists prefix a T,
    str_format default_prefix_format 2 0 = inr prefix /\
    str_format default_version_format 2 0 = inr (v_version a) /\
    In (prefix, a) (sub_applications (p_routes scenario_C_parent)) /\
    In ((2, 0), T) (cumulative_tables scenario_C (1, 0)) /\
    v_routes a = dict_values T.
Proof.
  apply (route_version_is_mounted str_format fastapi scenario_C default_version_format
           default_prefix_format (1, 0) false false [] scenario_C_parent
           scenario_C_b 2 0).
  - reflexivity.
  - right; left; reflexivity.
  - left. exists (handler "b" None). reflexivity.
Defined.

(** Lines 93-101 and 110: when an alias is requested, it is the last route
    of the parent, mounted at [/latest] and labelled with the version
    string of the highest version present if [enable_latest] is set, and
    otherwise mounted at the root and labelled with the version string of
    [default_version]. *)
Theorem alias_prefix_and_label
  (format : string -> Z -> Z -> M string) (fw : Framework) (app : FastAPI)
  (version_format prefix_format : string) (default_version : Version)
  (enable_latest enable_legacy : bool) (kwargs : Kwargs) (parent : ParentApp) :
  enable_latest || enable_legacy = true ->
  VersionedFastAPI format fw app version_format prefix_format default_version
    enable_latest enable_legacy kwargs = inr parent ->
  exists before a V,
    p_routes parent
      = (before ++ [Parent_Mount (if enable_latest then "/latest" else "")
                      (App_Versioned a) None])%list /\
    format version_format (fst V) (snd V) = inr (v_version a) /\
    (if enable_latest
     then In V (versions_present app default_version) /\
          forall V', In V' (versions_present app default_version) ->
                     version_leb V' V = true
     else V = default_version).
Proof.
  intros Hflags Hret. apply VersionedFastAPI_inr in Hret.
  destruct Hret as (_ & _ & R & _ & [[Hoff _]|[_ (V & semver & HV & Hsem & Hr)]]);
    [congruence|].
  exists (R ++ static_entries (routes app))%list. eexists. exists V.
  split; [rewrite Hr, <- app_assoc; reflexivity|].
  split; [exact Hsem|].
  destruct enable_latest; [|exact HV].
  destruct HV as [Hne ->]. split; [now apply last_In|].
  intros V' HV'.
  apply ascending_last_max; [apply versions_present_ascending|exact HV'].
Qed.

Lemma alias_prefix_and_label_witness :
  exists before a V,
    p_routes scenario_C_latest
      = (before ++ [Parent_Mount (if true then "/latest" else "")
                      (App_Versioned a) None])%list /\
    str_format default_version_format (fst V) (snd V) = inr (v_version a) /\
    (if true
     then In V (versions_present scenario_C (1, 0)) /\
          forall V', In V' (versions_present scenario_C (1, 0)) ->
                     version_leb V' V = true
     else V = (1, 0)).
Proof.
  apply (alias_prefix_and_label str_format fastapi scenario_C default_version_format
           default_prefix_format (1, 0) true true []).
  - reflexivity.
  - reflexivity.
Defined.

(** * When the function returns *)

Section Returns.
Variable format : string -> Z -> Z -> M string.
Variable fw : Framework.
Variable app : FastAPI.
Variables version_format prefix_format : string.
Variable kwargs : Kwargs.

Lemma version_step_returns_iff (m : VersionRouteMapping) (st : Locals)
  (v : Version) :
  (exists st',
     version_step format fw app version_format prefix_format kwargs m st v
     = inr st') <->
  version_accepted format fw app version_format prefix_format kwargs
    (v, add_routes (unique_routes st) (mapping_get m v)).
Proof.
  destruct v as [major minor].
  unfold version_accepted, version_step, new_versioned_app, mount, get.
  cbn [fst snd]. split.
  - intros [st' Hstep].
    destruct (format prefix_format major minor) as [e|prefix]; cbn [bind] in Hstep;
      [discriminate|].
    destruct (format version_format major minor) as [e|semver];
      cbn [bind] in Hstep; [discriminate|].
    destruct (FastAPI_init fw (versioned_kwargs app kwargs semver))
      as [e|[]] eqn:H1; cbn [bind ret] in Hstep; [discriminate|].
    destruct (Mount_init fw prefix _ None) as [e|[]] eqn:H2;
      cbn [bind ret] in Hstep; [discriminate|].
    destruct (APIRoute_init fw (prefix ++ "/docs") _ _) as [e|[]] eqn:H3;
      cbn [bind ret] in Hstep; [discriminate|].
    destruct (APIRoute_init fw (prefix ++ "/openapi.json") _ _) as [e|[]] eqn:H4;
      cbn [bind ret] in Hstep; [discriminate|].
    exists prefix, semver. repeat split; assumption.
  - intros (prefix & semver & Hp & Hs & H1 & H2 & H3 & H4).
    rewrite Hp, Hs. cbn [bind]. rewrite H1. cbn [bind ret].
    unfold append_routes. cbn [v_title v_description v_version v_args v_routes List.app].
    rewrite H2. cbn [bind ret]. rewrite H3. cbn [bind ret]. rewrite H4.
    cbn [bind ret]. eexists; reflexivity.
Qed.

Lemma for_versions_returns_iff (m : VersionRouteMapping) :
  forall (vs : list Version) (st : Locals),
  (exists st',
     for_versions format fw app version_format prefix_format kwargs m vs st
     = inr st') <->
  Forall (version_accepted format fw app version_format prefix_format kwargs)
         (tables_from m vs (unique_routes st)).
Proof.
  induction vs as [|v vs IH]; intros st; cbn [for_versions tables_from].
  - split; [constructor|]. intros _. now exists st.
  - split.
    + intros [st' Hloop].
      destruct (version_step format fw app version_format prefix_format kwargs
                  m st v) as [e|st1] eqn:Hstep; cbn [bind] in Hloop;
        [discriminate|].
      constructor.
      * apply version_step_returns_iff. now exists st1.
      * destruct v as [major minor].
        destruct (version_step_inr _ _ _ _ _ _ _ _ _ _ _ Hstep)
          as (_ & _ & _ & _ & Hu & _).
        rewrite <- Hu. apply IH. now exists st'.
    + intros HF. inversion HF as [|? ? Hv Hrest]; subst.
      apply version_step_returns_iff in Hv. destruct Hv as [st1 Hstep].
      rewrite Hstep. cbn [bind]. apply IH.
      destruct v as [major minor].
      destruct (version_step_inr _ _ _ _ _ _ _ _ _ _ _ Hstep)
        as (_ & _ & _ & _ & Hu & _).
      now rewrite Hu.
Qed.

Lemma mount_static_returns (ms : list Mount) :
  forall p p' : ParentApp,
  mount_static fw p ms = inr p' -> Forall (static_mount_accepted fw) ms.
Proof.
  induction ms as [|mt ms IH]; intros p p'; cbn [mount_static]; [constructor|].
  unfold mount.
  destruct (Mount_init fw (mount_path mt) _ _) as [e|[]] eqn:H1; cbn [bind ret];
    [discriminate|].
  intros H. constructor; [exact H1|]. eapply IH; exact H.
Qed.

End Returns.

Section ReturnsWhole.
Variable format : string -> Z -> Z -> M string.
Variable fw : Framework.
Variable app : FastAPI.
Variables version_format prefix_format : string.
Variable default_version : Version.
Variables enable_latest enable_legacy : bool.
Variable kwargs : Kwargs.

(** The function returns a parent exactly when the keyword arguments hold
    no [title], the framework accepts the parent, the runtime lets the
    iteration of every version present through (both templates format the
    version; the framework accepts the sub-application, its mount and its
    two routes), and, if an alias is requested, the runtime lets the alias
    branch through: a versionable route exists for the latest alias, the
    version template formats the version of the alias, and the framework
    accepts the alias, the mounts of the input and the mount of the
    alias. *)
Theorem VersionedFastAPI_returns_iff :
  (exists parent,
     VersionedFastAPI format fw app version_format prefix_format default_version
       enable_latest enable_legacy kwargs = inr parent) <->
  ~ In "title" (map fst kwargs) /\
  FastAPI_init fw (("title", title app) :: kwargs) = inr tt /\
  Forall (version_accepted format fw app version_format prefix_format kwargs)
         (cumulative_tables app default_version) /\
  (enable_latest || enable_legacy = true ->
   alias_accepted format fw app version_format default_version enable_latest
     kwargs).
Proof.
  unfold VersionedFastAPI, new_parent_app.
  rewrite <- existsb_title_In.
  destruct (existsb (String.eqb "title") (map fst kwargs)); cbn [bind ret raise].
  { split; [intros [parent H]; discriminate|]. intros [H _]. now exfalso. }
  destruct (FastAPI_init fw (("title", title app) :: kwargs)) as [e|[]] eqn:Hinit;
    cbn [bind ret].
  { split; [intros [parent H]; discriminate|]. intros (_ & H & _). discriminate. }
  rewrite version_routes_ok. cbv zeta.
  unfold cumulative_tables, alias_accepted, alias_table, versions_present.
  assert (Hnil := versions_present_nil app default_version).
  unfold versions_present in Hnil.
  set (vrs := tagged_routes (routes app) default_version) in *.
  assert (Hvar := group_routes_version_var vrs).
  destruct (group_routes vrs) as [m ver]. cbn [fst snd] in *.
  set (vs := sorted (dict_keys m)) in *.
  set (st0 := {| parent_app := {| p_title := title app; p_kwargs := kwargs;
                                  p_routes := [] |};
                 unique_routes := [];
                 version_var := ver |}).
  pose proof (for_versions_returns_iff format fw app version_format prefix_format
                kwargs m vs st0) as Hloop_iff.
  cbn [unique_routes st0] in Hloop_iff.
  destruct (for_versions format fw app version_format prefix_format kwargs m vs st0)
    as [e|st] eqn:Hloop; cbn [bind].
  { split; [intros [parent H]; discriminate|]. intros (_ & _ & HF & _).
    apply Hloop_iff in HF. destruct HF as [st' H]. discriminate. }
  assert (HF : Forall (version_accepted format fw app version_format
                         prefix_format kwargs) (tables_from m vs []))
    by (apply Hloop_iff; now exists st).
  apply for_versions_inr in Hloop. cbn [unique_routes version_var st0] in Hloop.
  destruct Hloop as (R & _ & _ & _ & _ & Hu & Hv).
  assert (Hversion : version_var st
                     = match vs with [] => None | _ => Some (last vs (0, 0)) end).
  { rewrite Hv. destruct vs; [|reflexivity]. apply Hvar. now apply Hnil. }
  clear Hv Hvar.
  unfold alias, new_versioned_app, mount.
  destruct (enable_latest || enable_legacy) eqn:Hflags.
  2:{ split; [|intros _; eexists; reflexivity].
      intros _. repeat split; auto. discriminate. }
  split.
  - intros [parent Halias].
    split; [discriminate|]. split; [reflexivity|]. split; [exact HF|]. intros _.
    assert (Hver : exists V,
      (if enable_latest
       then match version_var st with
            | Some version => ret version
            | None => raise UnboundLocalError
            end
       else ret default_version) = inr V /\
      (if enable_latest then vs <> [] /\ V = last vs (0, 0) else V = default_version)).
    { destruct enable_latest; [|eexists; split; reflexivity].
      rewrite Hversion in Halias |- *. destruct vs as [|v0 vs0]; [discriminate|].
      eexists; split; [reflexivity|]. split; [discriminate|reflexivity]. }
    destruct Hver as (V & HV & HVspec). rewrite HV in Halias. cbn [bind] in Halias.
    exists V. destruct V as [major minor]. cbn [fst snd].
    destruct (format version_format major minor) as [e|semver] eqn:Hsem;
      cbn [bind] in Halias; [discriminate|].
    destruct (FastAPI_init fw (versioned_kwargs app kwargs semver))
      as [e|[]] eqn:H1; cbn [bind ret] in Halias; [discriminate|].
    destruct (mount_static fw (parent_app st) _) as [e|p1] eqn:Hstatic;
      cbn [bind] in Halias; [discriminate|].
    rewrite static_mounts_filter in Hstatic.
    apply mount_static_returns in Hstatic.
    destruct (Mount_init fw _ _ None) as [e|[]] eqn:H2; cbn [bind ret] in Halias;
      [discriminate|].
    exists semver. split; [exact HVspec|]. split; [reflexivity|].
    split; [exact H1|]. split; [exact Hstatic|].
    rewrite <- Hu. exact H2.
  - intros (_ & _ & _ & Halias). specialize (Halias eq_refl).
    destruct Halias as ([major minor] & semver & HVspec & Hsem & H1 & Hstatic & H2).
    cbn [fst snd] in Hsem.
    assert (HV : (if enable_latest
                  then match version_var st with
                       | Some version => ret version
                       | None => raise UnboundLocalError
                       end
                  else ret default_version) = inr (major, minor)).
    { destruct enable_latest; [|now rewrite HVspec].
      destruct HVspec as [Hne ->]. rewrite Hversion.
      destruct vs; [congruence|reflexivity]. }
    rewrite HV. cbn [bind]. rewrite Hsem. cbn [bind]. rewrite H1. cbn [bind ret].
    rewrite static_mounts_filter, (mount_static_accepted fw _ Hstatic).
    cbn [bind]. unfold append_routes.
    cbn [v_title v_description v_version v_args v_routes List.app].
    rewrite Hu, H2. cbn [bind ret]. eexists; reflexivity.
Qed.

End ReturnsWhole.
